(** * Claude Chat backend: conversation store, model registry and chat handlers

    A shallow embedding of [backend/main.py] and [backend/database.py].

    Modelling conventions.
    - A Python [str] is a list of Unicode code points, so [len] and slices
      count characters.  White space is what [str.isspace] accepts.
      [str.lower], whose table is the Unicode character database, is an
      argument [lower] of the one function that calls it; so is the lower-case
      mapping [fold] of the database's locale, which [ILIKE] compares
      characters with.
    - [datetime] values are integers (ticks of the clock); every reading of the
      clock made by a handler is an input of the handler.
    - A [float] temperature is only ever passed on or rendered with [str()],
      so it is carried as its rendering.
    - The relational store is the PostgreSQL database of [database.py] and
      enforces what is declared there: a message row is accepted only when
      its [conversation_id] names an existing conversation; a [String(n)]
      column keeps a value of at most [n] characters, cuts a longer one to
      [n] characters when it cuts off blanks only, and refuses any other.
      Identifiers are drawn with [uuid4] and are inputs; they are taken to
      differ from those in use.  A commit is atomic.  [ORDER BY] is a stable
      sort of the rows in insertion order: rows with equal keys come in the
      order they were stored, one of the orders the database may give them.
    - Everything a handler does to the outside world (notifications on the
      socket, the upstream call, pauses, commits) is recorded, in order, in a
      trace of events. *)

From Stdlib Require Import ZArith NArith Lia List Ascii String Sorting.Sorted Permutation.
From stdpp Require Import base decidable option gmap strings.
Import ListNotations.

(* ===================================================================== *)
(** ** Python string operations *)
(* ===================================================================== *)

(** [str]: the code points of a text, in order. *)
Abbreviation str := (list N) (only parsing).

(** A literal of the source; all of them are ASCII, where a byte is a code
    point. *)
Fixpoint lit (s : string) : str :=
  match s with
  | EmptyString => []
  | String a s' => N_of_ascii a :: lit s'
  end.

Coercion lit : string >-> list.

(** [c.isspace()]: the characters U+0009 to U+000D, U+001C to U+0020, U+0085,
    U+00A0, U+1680, U+2000 to U+200A, U+2028, U+2029, U+202F, U+205F and
    U+3000. *)
Definition is_space (c : N) : bool :=
  ((9 <=? c) && (c <=? 13) || (28 <=? c) && (c <=? 32)
   || (c =? 133) || (c =? 160) || (c =? 5760)
   || (8192 <=? c) && (c <=? 8202)
   || (c =? 8232) || (c =? 8233) || (c =? 8239) || (c =? 8287)
   || (c =? 12288))%N.

(** [a == b] on [str]. *)
Fixpoint str_eqb (a b : str) : bool :=
  match a, b with
  | [], [] => true
  | x :: a', y :: b' => N.eqb x y && str_eqb a' b'
  | _, _ => false
  end.

(** [s.lstrip()] *)
Fixpoint lstrip (s : str) : str :=
  match s with
  | [] => []
  | c :: s' => if is_space c then lstrip s' else s
  end.

(** [s.rstrip()] *)
Fixpoint rstrip (s : str) : str :=
  match s with
  | [] => []
  | c :: s' =>
      match rstrip s' with
      | [] => if is_space c then [] else [c]
      | r => c :: r
      end
  end.

(** [s.strip()] *)
Definition strip (s : str) : str := rstrip (lstrip s).

(** [len(s)] *)
Definition len (s : str) : nat := length s.

(** [s[:n]] *)
Definition slice_to (n : nat) (s : str) : str := firstn n s.

(** [s.replace(c, '')] for a one-character [c]. *)
Fixpoint replace_with_empty (c : N) (s : str) : str :=
  match s with
  | [] => []
  | a :: s' =>
      if N.eqb a c then replace_with_empty c s'
      else a :: replace_with_empty c s'
  end.

(** [s.split()]: the maximal runs of non-space characters.  [cur] is the word
    being read. *)
Fixpoint split_from (cur : str) (s : str) : list str :=
  match s with
  | [] => match cur with [] => [] | _ => [cur] end
  | c :: s' =>
      if is_space c then
        match cur with
        | [] => split_from [] s'
        | _ => cur :: split_from [] s'
        end
      else split_from (cur ++ [c]) s'
  end.

Definition split (s : str) : list str := split_from [] s.

(** [sep.join(ws)] *)
Fixpoint join (sep : str) (ws : list str) : str :=
  match ws with
  | [] => []
  | [w] => w
  | w :: ws' => w ++ sep ++ join sep ws'
  end.

(** Number of non-space characters of a string. *)
Fixpoint count_nonspace (s : str) : nat :=
  match s with
  | [] => 0
  | c :: s' => (if is_space c then 0 else 1) + count_nonspace s'
  end.

(** Concatenation of a list of fragments, left to right. *)
Fixpoint concat_all (fs : list str) : str :=
  match fs with
  | [] => []
  | f :: fs' => f ++ concat_all fs'
  end.

(** Python truthiness of a [str]. *)
Definition truthy (s : str) : bool :=
  match s with [] => false | _ => true end.

(** Truthiness of an optional [str] ([None] and [''] are falsy). *)
Definition truthy_opt (o : option str) : bool :=
  match o with Some s => truthy s | None => false end.

(* ===================================================================== *)
(** ** SQL [LIKE] / [ILIKE] *)
(* ===================================================================== *)

(** A pattern is read into tokens: [%] matches any run of characters, [_]
    any one character, a backslash takes the next character literally. *)
Inductive like_token :=
| AnyRun
| AnyOne
| Lit (c : N).

Definition percent : N := 37.
Definition underscore : N := 95.
Definition backslash : N := 92.

(** [None]: the pattern ends with the escape character, which the database
    rejects. *)
Fixpoint like_tokens (p : str) : option (list like_token) :=
  match p with
  | [] => Some []
  | c :: p' =>
      if N.eqb c backslash then
        match p' with
        | [] => None
        | d :: p'' => option_map (cons (Lit d)) (like_tokens p'')
        end
      else if N.eqb c percent then option_map (cons AnyRun) (like_tokens p')
      else if N.eqb c underscore then option_map (cons AnyOne) (like_tokens p')
      else option_map (cons (Lit c)) (like_tokens p')
  end.

(** Matching a token list against a text.  A literal matches a character
    with the same image under [fold]; with the identity this is [LIKE]. *)
Fixpoint like_match (fold : N -> N) (p : list like_token) (s : str) : bool :=
  match p with
  | [] => match s with [] => true | _ => false end
  | Lit c :: p' =>
      match s with
      | a :: s' => N.eqb (fold a) (fold c) && like_match fold p' s'
      | [] => false
      end
  | AnyOne :: p' =>
      match s with
      | _ :: s' => like_match fold p' s'
      | [] => false
      end
  | AnyRun :: p' =>
      (fix run (s : str) : bool :=
         like_match fold p' s ||
         match s with
         | _ :: s' => run s'
         | [] => false
         end) s
  end.

(** [column.ilike(pattern)]: [LIKE] up to case, the case of a character
    being taken off by [fold], the lower-case mapping of the database's
    locale.  [None] is the database error for an ill-formed pattern. *)
Definition ilike (fold : N -> N) (text pattern : str) : option bool :=
  option_map (fun toks => like_match fold toks text) (like_tokens pattern).

(* ===================================================================== *)
(** ** The store ([database.py]) *)
(* ===================================================================== *)

Inductive role := user | assistant.

Definition role_str (r : role) : str :=
  match r with user => "user" | assistant => "assistant" end.

Record Conversation := {
  conv_id : str;
  conv_title : str;
  conv_created_at : Z;
  conv_updated_at : Z
}.

Record Message := {
  msg_id : str;
  msg_conversation_id : str;
  msg_role : role;
  msg_content : str;
  msg_model : option str;
  msg_temperature : str;
  msg_thinking_enabled : bool;
  msg_created_at : Z
}.

(** Both tables, in insertion order. *)
Record store := {
  conversations : list Conversation;
  messages : list Message
}.


#[global] Instance role_eq_dec : EqDecision role.
Proof. solve_decision. Defined.

#[global] Instance Conversation_eq_dec : EqDecision Conversation.
Proof. solve_decision. Defined.

#[global] Instance Message_eq_dec : EqDecision Message.
Proof. solve_decision. Defined.

(** Exceptions the handlers can meet, each with what [str(e)] shows. *)
Inductive exn :=
| IntegrityError (detail : str)
| DataError (detail : str)
| KeyError (key : str)
| TimeoutError (detail : str)
| UpstreamError (detail : str).

Definition str_exn (e : exn) : str :=
  match e with
  | IntegrityError d => d
  | DataError d => d
  | KeyError k => "'" ++ k ++ "'"
  | TimeoutError d => d
  | UpstreamError d => d
  end.

(** [db.query(Conversation).filter(Conversation.id == cid).first()] *)
Definition query_conversation (cid : str) (s : store) : option Conversation :=
  find (fun c => str_eqb (conv_id c) cid) (conversations s).

(** What a session has pending when [db.commit()] is called. *)
Inductive write :=
| InsertConversation (c : Conversation)
| InsertMessage (m : Message)
| UpdateConversation (cid : str) (title : str) (updated_at : option Z).

(** A value of at most [n] characters. *)
Definition fits (n : nat) (v : str) : bool := Nat.leb (len v) n.

(** What a [String(n)] column keeps of a value: the value when it has at
    most [n] characters; its first [n] characters when all those beyond are
    blanks; nothing otherwise, the statement being refused. *)
Definition column (n : nat) (v : str) : option str :=
  if fits n v then Some v
  else if forallb (N.eqb 32) (skipn n v) then Some (firstn n v)
  else None.

(** The row the table keeps of a conversation:
    [title = Column(String(255))]. *)
Definition stored_conversation (c : Conversation) : option Conversation :=
  match column 255 (conv_title c) with
  | Some title =>
      Some {| conv_id := conv_id c; conv_title := title;
              conv_created_at := conv_created_at c;
              conv_updated_at := conv_updated_at c |}
  | None => None
  end.

(** The row the table keeps of a message: [model = Column(String(100))],
    [temperature = Column(String(10))]; [content] is [Text], and both roles
    are shorter than the 20 characters of [role = Column(String(20))]. *)
Definition stored_message (m : Message) : option Message :=
  match match msg_model m with
        | Some v => option_map Some (column 100 v)
        | None => Some None
        end,
        column 10 (msg_temperature m) with
  | Some model, Some temperature =>
      Some {| msg_id := msg_id m;
              msg_conversation_id := msg_conversation_id m;
              msg_role := msg_role m;
              msg_content := msg_content m;
              msg_model := model;
              msg_temperature := temperature;
              msg_thinking_enabled := msg_thinking_enabled m;
              msg_created_at := msg_created_at m |}
  | _, _ => None
  end.

(** The [UPDATE] a flush emits for one conversation row.  Only columns whose
    value differs from the loaded one are written; when a row is written and
    [updated_at] is not among the written columns, the column's [onupdate]
    default, the clock at flush time, is used. *)
Definition flush_conversation (title : str) (upd : option Z) (now : Z)
    (c : Conversation) : Conversation :=
  let title_changed := negb (str_eqb title (conv_title c)) in
  let upd_changed :=
    match upd with Some t => negb (Z.eqb t (conv_updated_at c)) | None => false end in
  if title_changed || upd_changed then
    {| conv_id := conv_id c;
       conv_title := title;
       conv_created_at := conv_created_at c;
       conv_updated_at :=
         match upd with
         | Some t => if upd_changed then t else now
         | None => now
         end |}
  else c.

(** A row with the title its column keeps. *)
Definition set_title (title : str) (c : Conversation) : Conversation :=
  {| conv_id := conv_id c; conv_title := title;
     conv_created_at := conv_created_at c;
     conv_updated_at := conv_updated_at c |}.

(** One statement of a flush.  An [INSERT] is refused with a [DataError]
    when a column refuses its value, and with an [IntegrityError] when the
    conversation of a message is missing.  An [UPDATE] writes the title when
    it is not the one that was loaded, and is refused when the column
    refuses it. *)
Definition apply_write (detail : str) (now : Z) (w : write) (s : store)
    : exn + store :=
  match w with
  | InsertConversation c =>
      match stored_conversation c with
      | Some row =>
          inr {| conversations := conversations s ++ [row];
                 messages := messages s |}
      | None => inl (DataError detail)
      end
  | InsertMessage m =>
      match stored_message m with
      | Some row =>
          match query_conversation (msg_conversation_id m) s with
          | Some _ =>
              inr {| conversations := conversations s;
                     messages := messages s ++ [row] |}
          | None => inl (IntegrityError detail)
          end
      | None => inl (DataError detail)
      end
  | UpdateConversation cid title upd =>
      let kept :=
        match query_conversation cid s with
        | Some c => if str_eqb title (conv_title c) then Some title
                    else column 255 title
        | None => Some title
        end in
      match kept with
      | Some stored =>
          inr {| conversations :=
                   map (fun c => if str_eqb (conv_id c) cid
                                 then set_title stored
                                        (flush_conversation title upd now c)
                                 else c)
                       (conversations s);
                 messages := messages s |}
      | None => inl (DataError detail)
      end
  end.

(** [db.commit()]: the pending writes are flushed in order, all or nothing.
    [detail] is the text of the database's error, [now] the clock at flush. *)
Fixpoint commit (detail : str) (now : Z) (ws : list write) (s : store)
    : exn + store :=
  match ws with
  | [] => inr s
  | w :: ws' =>
      match apply_write detail now w s with
      | inr s' => commit detail now ws' s'
      | inl e => inl e
      end
  end.

(** Insertion into a list kept in the order [le]. *)
Fixpoint insert_by {A} (le : A -> A -> bool) (x : A) (l : list A) : list A :=
  match l with
  | [] => [x]
  | y :: l' => if le x y then x :: l else y :: insert_by le x l'
  end.

(** [ORDER BY]: a stable sort; rows with equal keys keep the order they
    were stored in. *)
Fixpoint order_by {A} (le : A -> A -> bool) (l : list A) : list A :=
  match l with
  | [] => []
  | x :: l' => insert_by le x (order_by le l')
  end.

(** [DISTINCT] on rows. *)
Fixpoint distinct {A} {eqA : EqDecision A} (l : list A) : list A :=
  match l with
  | [] => []
  | x :: l' => if in_dec eqA x l' then distinct l' else x :: distinct l'
  end.

(* ===================================================================== *)
(** ** The model registry *)
(* ===================================================================== *)

Record model_config := {
  name : str;
  max_tokens : Z;
  supports_thinking : bool;
  context_window : Z;
  description : str
}.

Definition sonnet_id : str := "claude-sonnet-4-20250514".
Definition opus_id : str := "claude-opus-4-20250514".

Definition sonnet_config : model_config :=
  {| name := "Claude 4 Sonnet";
     max_tokens := 64000;
     supports_thinking := true;
     context_window := 200000;
     description := "High-performance model with exceptional reasoning capabilities" |}.

Definition opus_config : model_config :=
  {| name := "Claude 4 Opus";
     max_tokens := 32000;
     supports_thinking := true;
     context_window := 200000;
     description := "Our most capable and intelligent model yet" |}.

Definition CLAUDE_MODELS : gmap str model_config :=
  <[sonnet_id := sonnet_config]> (<[opus_id := opus_config]> ∅).

(** [d[k]]: a [KeyError] when the key is missing. *)
Definition subscript (d : gmap str model_config) (k : str)
    : exn + model_config :=
  match d !! k with
  | Some v => inr v
  | None => inl (KeyError k)
  end.

(** [CLAUDE_MODELS.get(model, CLAUDE_MODELS[lit "claude-sonnet-4-20250514"])]:
    the default is evaluated first, then the lookup. *)
Definition get_model_config (model : str) : exn + model_config :=
  match subscript CLAUDE_MODELS sonnet_id with
  | inl e => inl e
  | inr dflt => inr (default dflt (CLAUDE_MODELS !! model))
  end.

(* ===================================================================== *)
(** ** Requests, notifications and events *)
(* ===================================================================== *)

(** [ChatMessage]: one prior turn sent by the client. *)
Record ChatMessage := {
  cm_role : str;
  cm_content : str
}.

(** [ChatRequest], with the defaults of the pydantic model filled in. *)
Record ChatRequest := {
  message : str;
  conversation_history : list ChatMessage;
  model : str;
  temperature : str;
  enable_thinking : bool;
  conversation_id : option str;
  enable_web_search : bool
}.

(** The JSON object received on the socket: every key may be missing. *)
Record ws_data := {
  d_message : option str;
  d_conversation_history : option (list ChatMessage);
  d_model : option str;
  d_temperature : option str;
  d_enable_thinking : option bool;
  d_enable_web_search : option bool;
  d_conversation_id : option str
}.

(** The [data.get(key, default)] block that opens [process_streaming_chat]. *)
Definition extract_request (data : ws_data) : ChatRequest :=
  {| message := default [] (d_message data);
     conversation_history := default [] (d_conversation_history data);
     model := default sonnet_id (d_model data);
     temperature := default (lit "0.1") (d_temperature data);
     enable_thinking := default false (d_enable_thinking data);
     conversation_id := d_conversation_id data;
     enable_web_search := default false (d_enable_web_search data) |}.

(** [{"role": r, "content": [{"type": "text", "text": t}]}] *)
Record api_message := {
  am_role : str;
  am_text : str
}.

Record tool := {
  tool_type : str;
  tool_name : str;
  tool_max_uses : Z
}.

(** The keyword arguments of [claude_client.messages.stream].  [p_thinking]
    tells whether the [thinking] key is set, [p_tools] is empty when the
    [tools] key is absent. *)
Record api_params := {
  p_model : str;
  p_max_tokens : Z;
  p_temperature : str;
  p_messages : list api_message;
  p_thinking : bool;
  p_tools : list tool
}.

(** What the upstream does with a request: the fragments its text stream
    yields, and the exception that ends the stream, if any. *)
Definition upstream := api_params -> list str * option exn.

(** What the server sends on the socket. *)
Inductive notification :=
| Status (message : str)
| Chunk (content : str) (full_message : str)
| Complete (message : str) (timestamp : Z)
| Error (message : str).

Inductive event :=
| EvSend (n : notification)
| EvUpstream (p : api_params)
| EvSleep (milliseconds : Z)
| EvCommit (ws : list write) (accepted : bool)
| EvRollback
| EvClose.

(** HTTP outcomes of the request/response endpoints. *)
Inductive response (A : Type) :=
| Ok (a : A)
| HTTPException (status_code : Z) (detail : str).
Arguments Ok {A} a.
Arguments HTTPException {A} status_code detail.

(** [ChatResponse] *)
Record ChatResponse := {
  cr_message : str;
  cr_timestamp : Z
}.

(** What a chat turn reads from its environment: the identifiers drawn for
    the rows it inserts, the readings of the clock ([user_flush_time] and
    [assistant_flush_time] are the creation times the two rows get when they
    are flushed, [updated_time] is the [utcnow()] assigned to the conversation,
    [complete_time] the [now()] of the reply), and the text of the database's
    error. *)
Record chat_env := {
  user_message_id : str;
  user_flush_time : Z;
  complete_time : Z;
  updated_time : Z;
  assistant_message_id : str;
  assistant_flush_time : Z;
  db_error_detail : str
}.

(** The environment of the title and conversation endpoints. *)
Record store_env := {
  fresh_id : str;
  utcnow : Z;
  flush_time : Z;
  error_detail : str
}.

(* ===================================================================== *)
(** ** Conversation endpoints *)
(* ===================================================================== *)

(** [db.refresh(c)] after the insertion of [c]: the row the table keeps. *)
Definition refresh (c : Conversation) : Conversation :=
  default c (stored_conversation c).

(** [create_conversation]: the two timestamps take their column default,
    [datetime.utcnow], which is called once for each: [utcnow e] and
    [flush_time e] are those two readings of the clock. *)
Definition create_conversation (title : str) (e : store_env) (s : store)
    : response Conversation * store :=
  let db_conversation :=
    {| conv_id := fresh_id e; conv_title := title;
       conv_created_at := utcnow e; conv_updated_at := flush_time e |} in
  match commit (error_detail e) (flush_time e)
               [InsertConversation db_conversation] s with
  | inr s' => (Ok (refresh db_conversation), s')
  | inl _ => (HTTPException 500 "Failed to create conversation", s)
  end.

Definition updated_desc (a b : Conversation) : bool :=
  (conv_updated_at b <=? conv_updated_at a)%Z.

Definition created_asc (a b : Message) : bool :=
  (msg_created_at a <=? msg_created_at b)%Z.

(** [get_conversations] *)
Definition get_conversations (s : store) : response (list Conversation) :=
  Ok (order_by updated_desc (conversations s)).

(** [Conversation JOIN Message ON id = conversation_id, isouter=True] *)
Definition outer_join (s : store) : list (Conversation * option Message) :=
  flat_map
    (fun c =>
       match List.filter (fun m => str_eqb (conv_id c) (msg_conversation_id m))
                    (messages s) with
       | [] => [(c, None)]
       | ms => map (fun m => (c, Some m)) ms
       end)
    (conversations s).

(** [title ILIKE term OR content ILIKE term] on one joined row; the content
    of a row without message is [NULL] and cannot make the row pass. *)
Definition row_matches (fold : N -> N) (term : str)
    (row : Conversation * option Message) : option bool :=
  match ilike fold (conv_title (fst row)) term with
  | None => None
  | Some bt =>
      match snd row with
      | None => Some bt
      | Some m => option_map (orb bt) (ilike fold (msg_content m) term)
      end
  end.

(** [WHERE]: the rows that pass, or [None] when evaluating a row fails. *)
Fixpoint where_rows (fold : N -> N) (term : str)
    (rows : list (Conversation * option Message))
    : option (list (Conversation * option Message)) :=
  match rows with
  | [] => Some []
  | r :: rows' =>
      match row_matches fold term r, where_rows fold term rows' with
      | Some b, Some kept => Some (if b then r :: kept else kept)
      | _, _ => None
      end
  end.

(** [search_conversations].  [lower] is [str.lower], [fold] the lower-case
    mapping [ILIKE] uses in the database. *)
Definition search_conversations (lower : str -> str) (fold : N -> N) (q : str)
    (s : store) : response (list Conversation) :=
  if negb (truthy q) || Nat.ltb (len (strip q)) 2 then Ok []
  else
    let search_term := "%" ++ lower (strip q) ++ "%" in
    match where_rows fold search_term (outer_join s) with
    | Some rows => Ok (order_by updated_desc (distinct (map fst rows)))
    | None => HTTPException 500 "Failed to search conversations"
    end.

(** [update_conversation_title]; [title_data] is [title_data.get("title")]. *)
Definition update_conversation_title (cid : str) (title_data : option str)
    (e : store_env) (s : store) : response str * store :=
  match query_conversation cid s with
  | None => (HTTPException 404 "Conversation not found", s)
  | Some conversation =>
      let title := default (conv_title conversation) title_data in
      match commit (error_detail e) (flush_time e)
                   [UpdateConversation cid title (Some (utcnow e))] s with
      | inr s' => (Ok (lit "Title updated successfully"), s')
      | inl _ => (HTTPException 500 "Failed to update conversation title", s)
      end
  end.

Definition nl : str := [10%N].
Definition indent : str := "        ".

(** The loop building [conversation_content]. *)
Fixpoint conversation_content (msgs : list Message) : str :=
  match msgs with
  | [] => []
  | msg :: msgs' =>
      (role_str (msg_role msg) ++ ": " ++ msg_content msg ++ nl)
      ++ conversation_content msgs'
  end.

Definition title_prompt (msgs : list Message) : str :=
  "Based on this conversation, generate a concise title that captures the main topic. " ++ nl ++
  indent ++ "The title should be EXACTLY 4 words or less, no punctuation, just the core topic." ++ nl ++
  nl ++
  indent ++ "Conversation:" ++ nl ++
  indent ++ slice_to 1000 (conversation_content msgs) ++ "..." ++ nl ++
  nl ++
  indent ++ "Title (4 words max):".

Definition title_params (msgs : list Message) : api_params :=
  {| p_model := sonnet_id;
     p_max_tokens := 20;
     p_temperature := "0.3";
     p_messages := [{| am_role := "user"; am_text := title_prompt msgs |}];
     p_thinking := false;
     p_tools := [] |}.

(** The clean-up of the generated text: strip, drop both quote characters,
    keep the first four words. *)
Definition clean_title (response_text : str) : str :=
  let generated_title :=
    replace_with_empty 39
      (replace_with_empty 34 (strip response_text)) in
  let title_words := firstn 4 (split generated_title) in
  join " " title_words.

(** [content[:30] + "..." if len(content) > 30 else content] *)
Definition excerpt (content : str) : str :=
  if Nat.ltb 30 (len content) then slice_to 30 content ++ "..." else content.

(** The messages read by [generate_conversation_title]:
    [filter(conversation_id == cid).order_by(created_at).limit(5)]. *)
Definition first_messages (cid : str) (s : store) : list Message :=
  firstn 5
    (order_by created_asc
       (List.filter (fun m => str_eqb (msg_conversation_id m) cid) (messages s))).

(** [generate_conversation_title].  When the commit of the generated title
    is refused the session is left with a transaction that was rolled back
    and not ended: the fallback of the inner handler, which uses the session
    again, fails in its turn, and the outer handler answers. *)
Definition generate_conversation_title (claude_client : bool) (cid : str)
    (up : upstream) (e : store_env) (s : store)
    : response str * list event * store :=
  if negb claude_client then
    (HTTPException 500 "Claude client not initialized", [], s)
  else
    match query_conversation cid s with
    | None => (HTTPException 404 "Conversation not found", [], s)
    | Some conversation =>
        match first_messages cid s with
        | [] => (Ok (lit "New Chat"), [], s)
        | (first :: _) as msgs =>
            let params := title_params msgs in
            let fallback (tr : list event) :=
              let first_message := excerpt (msg_content first) in
              let ws := [UpdateConversation cid first_message None] in
              match commit (error_detail e) (flush_time e) ws s with
              | inr s' => (Ok first_message, tr ++ [EvCommit ws true], s')
              | inl _ =>
                  (HTTPException 500 "Failed to generate conversation title",
                   tr ++ [EvCommit ws false], s)
              end in
            match up params with
            | (fragments, None) =>
                let final_title := clean_title (concat_all fragments) in
                let ws := [UpdateConversation cid final_title (Some (utcnow e))] in
                match commit (error_detail e) (flush_time e) ws s with
                | inr s' =>
                    (Ok final_title, [EvUpstream params; EvCommit ws true], s')
                | inl _ =>
                    (HTTPException 500 "Failed to generate conversation title",
                     [EvUpstream params; EvCommit ws false], s)
                end
            | (_, Some _) => fallback [EvUpstream params]
            end
        end
    end.

(* ===================================================================== *)
(** ** Chat handlers *)
(* ===================================================================== *)

(** The row built for the inbound user turn. *)
Definition user_message (cid : str) (r : ChatRequest) (e : chat_env) : Message :=
  {| msg_id := user_message_id e;
     msg_conversation_id := cid;
     msg_role := user;
     msg_content := message r;
     msg_model := None;
     msg_temperature := temperature r;
     msg_thinking_enabled := enable_thinking r;
     msg_created_at := user_flush_time e |}.

(** The row built for the assistant turn. *)
Definition assistant_message (cid : str) (r : ChatRequest) (e : chat_env)
    (response_text : str) : Message :=
  {| msg_id := assistant_message_id e;
     msg_conversation_id := cid;
     msg_role := assistant;
     msg_content := response_text;
     msg_model := Some (model r);
     msg_temperature := temperature r;
     msg_thinking_enabled := enable_thinking r;
     msg_created_at := assistant_flush_time e |}.

(** History followed by the current message. *)
Definition prepare_messages (r : ChatRequest) : list api_message :=
  map (fun msg => {| am_role := cm_role msg; am_text := cm_content msg |})
      (conversation_history r)
  ++ [{| am_role := "user"; am_text := message r |}].

Definition web_search_tool : tool :=
  {| tool_type := "web_search_20250305"; tool_name := "web_search";
     tool_max_uses := 5 |}.

(** [api_params] / [stream_params] *)
Definition build_params (r : ChatRequest) (model_config : model_config) : api_params :=
  {| p_model := model r;
     p_max_tokens := max_tokens model_config;
     p_temperature := temperature r;
     p_messages := prepare_messages r;
     p_thinking := enable_thinking r && supports_thinking model_config;
     p_tools := if enable_web_search r then [web_search_tool] else [] |}.

(** The writes pending when the assistant turn is committed: the new row,
    and the timestamp of the conversation when the query found one. *)
Definition assistant_writes (cid : str) (m : Message) (now : Z) (s : store)
    : list write :=
  match query_conversation cid s with
  | Some conversation =>
      [UpdateConversation cid (conv_title conversation) (Some now); InsertMessage m]
  | None => [InsertMessage m]
  end.

(** Saving the assistant turn: commit, and roll back quietly on failure. *)
Definition save_assistant_message (r : ChatRequest) (e : chat_env)
    (response_text : str) (s : store) : list event * store :=
  match conversation_id r with
  | Some cid =>
      if truthy cid && truthy response_text then
        let ws := assistant_writes cid (assistant_message cid r e response_text)
                                   (updated_time e) s in
        match commit (db_error_detail e) (assistant_flush_time e) ws s with
        | inr s' => ([EvCommit ws true], s')
        | inl _ => ([EvCommit ws false; EvRollback], s)
        end
      else ([], s)
  | None => ([], s)
  end.

(** Saving the user turn: commit, and on failure roll back and re-raise. *)
Definition save_user_message (r : ChatRequest) (e : chat_env) (s : store)
    : list event * (exn + store) :=
  match conversation_id r with
  | Some cid =>
      if truthy cid then
        let ws := [InsertMessage (user_message cid r e)] in
        match commit (db_error_detail e) (user_flush_time e) ws s with
        | inr s' => ([EvCommit ws true], inr s')
        | inl err => ([EvCommit ws false; EvRollback], inl err)
        end
      else ([], inr s)
  | None => ([], inr s)
  end.

(** [chat_endpoint] *)
Definition chat_endpoint (claude_client : bool) (request : ChatRequest)
    (up : upstream) (e : chat_env) (s : store)
    : response ChatResponse * list event * store :=
  if negb claude_client then
    (HTTPException 500 "Claude client not initialized", [], s)
  else
    match save_user_message request e s with
    | (tr0, inl err) => (HTTPException 500 (str_exn err), tr0, s)
    | (tr0, inr s1) =>
        match get_model_config (model request) with
        | inl err => (HTTPException 500 (str_exn err), tr0, s1)
        | inr model_config =>
            let api_params := build_params request model_config in
            match up api_params with
            | (_, Some err) =>
                (HTTPException 500 (str_exn err), tr0 ++ [EvUpstream api_params], s1)
            | (fragments, None) =>
                let response_text := concat_all fragments in
                let '(tr1, s2) := save_assistant_message request e response_text s1 in
                (Ok {| cr_message := response_text; cr_timestamp := complete_time e |},
                 tr0 ++ [EvUpstream api_params] ++ tr1, s2)
            end
        end
    end.

(** The [for text in stream.text_stream] loop: accumulate, send the chunk,
    and for the Opus model pause after every tenth chunk. *)
Fixpoint stream_loop (model : str) (fragments : list str)
    (full_response : str) (chunk_count : nat) : list event * str :=
  match fragments with
  | [] => ([], full_response)
  | text :: rest =>
      let full_response := full_response ++ text in
      let chunk_count := S chunk_count in
      let pause :=
        if str_eqb model opus_id && Nat.eqb (chunk_count mod 10) 0
        then [EvSleep 10] else [] in
      let '(tr, final) := stream_loop model rest full_response chunk_count in
      (EvSend (Chunk text full_response) :: pause ++ tr, final)
  end.

(** The text of the notification sent when the stream raises. *)
Definition stream_error_text (model_config : model_config) (err : exn) : str :=
  match err with
  | TimeoutError _ =>
      "Request timed out for " ++ name model_config ++ ". Please try again."
  | _ => "Streaming error with " ++ name model_config ++ ": " ++ str_exn err
  end.

(** [process_streaming_chat]: one turn on the socket.  [response_sent] is
    still [False] when the loop ends, so the completion block always runs.
    When the user turn cannot be saved the exception leaves the inner [try],
    the [finally] closes the session and the outer handler sends the error. *)
Definition process_streaming_chat (claude_client : bool) (data : ws_data)
    (up : upstream) (e : chat_env) (s : store) : list event * store :=
  if negb claude_client then
    ([EvSend (Error "Claude client not initialized")], s)
  else
    let r := extract_request data in
    match save_user_message r e s with
    | (tr0, inl err) => (tr0 ++ [EvClose; EvSend (Error (str_exn err))], s)
    | (tr0, inr s1) =>
        match get_model_config (model r) with
        | inl err => (tr0 ++ [EvClose; EvSend (Error (str_exn err))], s1)
        | inr model_config =>
            let status :=
              EvSend (Status ("Processing with " ++ name model_config ++ "...")) in
            let stream_params := build_params r model_config in
            let '(fragments, failure) := up stream_params in
            let '(tr1, full_response) :=
              stream_loop (model r) fragments [] 0 in
            match failure with
            | None =>
                let '(tr2, s2) := save_assistant_message r e full_response s1 in
                (tr0 ++ [status; EvUpstream stream_params] ++ tr1
                     ++ [EvSend (Complete full_response (complete_time e))]
                     ++ tr2 ++ [EvClose], s2)
            | Some err =>
                (tr0 ++ [status; EvUpstream stream_params] ++ tr1
                     ++ [EvSend (Error (stream_error_text model_config err)); EvClose],
                 s1)
            end
        end
    end.

(** What the client sees of a trace: the notifications, in order. *)
Fixpoint sent (tr : list event) : list notification :=
  match tr with
  | [] => []
  | EvSend n :: tr' => n :: sent tr'
  | _ :: tr' => sent tr'
  end.

(** The requests a trace sends upstream. *)
Fixpoint upstream_calls (tr : list event) : list api_params :=
  match tr with
  | [] => []
  | EvUpstream p :: tr' => p :: upstream_calls tr'
  | _ :: tr' => upstream_calls tr'
  end.

Definition is_chunk (n : notification) : bool :=
  match n with Chunk _ _ => true | _ => false end.

Definition is_complete (n : notification) : bool :=
  match n with Complete _ _ => true | _ => false end.

Definition is_error (n : notification) : bool :=
  match n with Error _ => true | _ => false end.

(** The chunk notifications of fragments [fs] when [acc] was sent before:
    each carries its fragment and the text accumulated so far. *)
Fixpoint chunks_from (acc : str) (fs : list str) : list notification :=
  match fs with
  | [] => []
  | f :: fs' => Chunk f (acc ++ f) :: chunks_from (acc ++ f) fs'
  end.

(* ===================================================================== *)
(** ** Vocabulary of the properties *)
(* ===================================================================== *)

(** The chunk notification expected for the fragment at position [i] (from
    0): the fragment and the concatenation of the fragments up to it. *)
Definition chunk_at (fs : list str) (i : nat) : notification :=
  Chunk (nth i fs []) (concat_all (firstn (S i) fs)).

Definition expected_chunks (fs : list str) : list notification :=
  map (chunk_at fs) (seq 0 (length fs)).

(** The positions [k] (counted from 1, continuing from [count]) of the chunk
    notifications of a trace that are immediately followed by a pause. *)
Fixpoint pauses (count : nat) (tr : list event) : list nat :=
  match tr with
  | [] => []
  | EvSend (Chunk _ _) :: tr' =>
      match tr' with
      | EvSleep _ :: _ => S count :: pauses (S count) tr'
      | _ => pauses (S count) tr'
      end
  | _ :: tr' => pauses count tr'
  end.

(** The pauses of a trace, with their lengths. *)
Fixpoint sleeps (tr : list event) : list Z :=
  match tr with
  | [] => []
  | EvSleep d :: tr' => d :: sleeps tr'
  | _ :: tr' => sleeps tr'
  end.

(** The rows inserted by the accepted commits of a trace, as the table
    keeps them. *)
Definition inserted (ws : list write) : list Message :=
  flat_map (fun w => match w with
                     | InsertMessage m =>
                         match stored_message m with Some row => [row] | None => [] end
                     | _ => []
                     end) ws.

Fixpoint persisted (tr : list event) : list Message :=
  match tr with
  | [] => []
  | EvCommit ws true :: tr' => inserted ws ++ persisted tr'
  | _ :: tr' => persisted tr'
  end.

(** [t] contains [w] up to case: a run of [t] has, character by character,
    the lower case of [w]. *)
Definition contains_ci (fold : N -> N) (w t : str) : Prop :=
  exists pre mid post, t = pre ++ mid ++ post /\ map fold mid = map fold w.

(** The conversation's title, or the content of one of its messages,
    contains [q] up to case. *)
Definition matches_query (fold : N -> N) (w : str) (s : store)
    (c : Conversation) : Prop :=
  contains_ci fold w (conv_title c) \/
  exists m, In m (messages s) /\ msg_conversation_id m = conv_id c /\
            contains_ci fold w (msg_content m).




(* ===================================================================== *)
(** ** Auxiliary definitions and sample inputs *)
(* ===================================================================== *)

(** An event that is neither a chunk notification nor a pause. *)
Definition quiet (ev : event) : bool :=
  match ev with
  | EvSend (Chunk _ _) => false
  | EvSleep _ => false
  | _ => true
  end.

(** The pause the loop makes after the chunk at position [k]. *)
Definition pause_after (model_id : str) (k : nat) : list event :=
  if str_eqb model_id opus_id && Nat.eqb (k mod 10) 0
  then [EvSleep 10] else [].

(** The store with one more message row. *)
Definition with_message (m : Message) (s : store) : store :=
  {| conversations := conversations s; messages := messages s ++ [m] |}.

(** The store after the assistant turn of conversation [cid] was saved. *)
Definition with_reply (cid : str) (m : Message) (t now : Z) (s : store) : store :=
  {| conversations :=
       map (fun c => if str_eqb (conv_id c) cid
                     then flush_conversation
                            (match query_conversation cid s with
                             | Some c0 => conv_title c0 | None => [] end)
                            (Some t) now c
                     else c) (conversations s);
     messages := messages s ++ [m] |}.

(** The status notification naming the resolved model. *)
Definition status_event (cfg : model_config) : event :=
  EvSend (Status ("Processing with " ++ name cfg ++ "...")).

(** The resolved descriptor of a request. *)
Definition resolved (r : ChatRequest) : model_config :=
  default sonnet_config (CLAUDE_MODELS !! model r).

(** Sample inputs: a store with one conversation, requests on the socket and
    upstreams that answer, break off, or fail at once. *)
Definition sample_env : chat_env :=
  {| user_message_id := "m-1"; user_flush_time := 200;
     complete_time := 210; updated_time := 220;
     assistant_message_id := "m-2"; assistant_flush_time := 221;
     db_error_detail := "insert on messages violates foreign key constraint" |}.

Definition sample_conversation : Conversation :=
  {| conv_id := "c-1"; conv_title := "hi";
     conv_created_at := 100; conv_updated_at := 100 |}.

Definition sample_store : store :=
  {| conversations := [sample_conversation]; messages := [] |}.

Definition sample_data (cid : option str) (m : option str) : ws_data :=
  {| d_message := Some (lit "Say hello"); d_conversation_history := None;
     d_model := m; d_temperature := None; d_enable_thinking := Some true;
     d_enable_web_search := None; d_conversation_id := cid |}.

Definition hello_upstream : upstream :=
  fun _ => ([lit "Hel"; lit "lo"], None).

Definition broken_upstream : upstream :=
  fun _ => ([lit "Hel"; lit "lo"], Some (UpstreamError "overloaded")).

(** The lower case of the ASCII letters, which every lower-case mapping
    extends: the mapping the sample runs of the search are made with. *)
Definition fold_ascii (c : N) : N :=
  if ((65 <=? c) && (c <=? 90))%N then (c + 32)%N else c.

Definition lower_ascii (s : str) : str := map fold_ascii s.



(** The multiples of ten among the first [n] positions, for the Opus model. *)
Definition paced (model_id : str) (n : nat) : list nat :=
  List.filter (fun k => str_eqb model_id opus_id && Nat.eqb (k mod 10) 0)
              (seq 1 n).

Definition twelve_fragments : upstream :=
  fun _ => (repeat (lit "ab") 12, None).




(** The store after the title of conversation [cid] was written. *)
Definition with_title (cid title : str) (upd : option Z) (now : Z) (s : store)
    : store :=
  {| conversations :=
       map (fun c => if str_eqb (conv_id c) cid
                     then flush_conversation title upd now c else c)
           (conversations s);
     messages := messages s |}.

(** The same when the column keeps [stored] of the title. *)
Definition with_stored_title (cid title stored : str) (upd : option Z) (now : Z)
    (s : store) : store :=
  {| conversations :=
       map (fun c => if str_eqb (conv_id c) cid
                     then set_title stored (flush_conversation title upd now c)
                     else c)
           (conversations s);
     messages := messages s |}.

(** Sample inputs of the title generation. *)
Definition long_message : Message :=
  {| msg_id := "m-0"; msg_conversation_id := "c-1"; msg_role := user;
     msg_content := "Please summarise the quarterly sales report";
     msg_model := None; msg_temperature := "0.1";
     msg_thinking_enabled := false; msg_created_at := 150 |}.

Definition title_store : store :=
  {| conversations := [sample_conversation]; messages := [long_message] |}.

Definition title_env : store_env :=
  {| fresh_id := "c-2"; utcnow := 300; flush_time := 301;
     error_detail := "connection lost" |}.


Definition wordy_upstream : upstream :=
  fun _ => ([lit "  'Quarterly "; lit "sales report' summary for the team "],
            None).


(* ===================================================================== *)
(** ** The remaining endpoints *)
(* ===================================================================== *)

(** [ConversationDetail]: a conversation with its messages. *)
Record ConversationDetail := {
  cd_id : str;
  cd_title : str;
  cd_created_at : Z;
  cd_updated_at : Z;
  cd_messages : list Message
}.

(** [get_conversation]: the conversation and its messages by creation time. *)
Definition get_conversation (cid : str) (s : store) : response ConversationDetail :=
  match query_conversation cid s with
  | None => HTTPException 404 "Conversation not found"
  | Some conversation =>
      let msgs :=
        order_by created_asc
          (List.filter (fun m => str_eqb (msg_conversation_id m) cid)
                       (messages s)) in
      Ok {| cd_id := conv_id conversation;
            cd_title := conv_title conversation;
            cd_created_at := conv_created_at conversation;
            cd_updated_at := conv_updated_at conversation;
            cd_messages := msgs |}
  end.

(** [delete_conversation]: [db.delete(conversation)] removes the row and,
    through the [cascade] of the relationship, the messages that refer to
    it. *)
Definition delete_conversation (cid : str) (s : store) : response str * store :=
  match query_conversation cid s with
  | None => (HTTPException 404 "Conversation not found", s)
  | Some conversation =>
      (Ok (lit "Conversation deleted successfully"),
       {| conversations :=
            List.filter (fun c => negb (str_eqb (conv_id c) (conv_id conversation)))
                        (conversations s);
          messages :=
            List.filter (fun m => negb (str_eqb (msg_conversation_id m)
                                                   (conv_id conversation)))
                        (messages s) |})
  end.

(** What [websocket.receive_json()] gives: a request, with what the turn
    will read from its environment, or an exception other than the
    disconnection (a frame that is not JSON). *)
Inductive frame :=
| Request (data : ws_data) (e : chat_env)
| Malformed (detail : str).

(** [list.remove(x)]: the first occurrence goes. *)
Fixpoint remove_first (x : nat) (l : list nat) : list nat :=
  match l with
  | [] => []
  | y :: l' => if Nat.eqb x y then l' else y :: remove_first x l'
  end.

(** The [while True] loop of [websocket_endpoint] on the frames [inbox],
    after which the client disconnects.  The third component tells whether
    the loop ended with the disconnection. *)
Fixpoint receive_loop (claude_client : bool) (up : upstream) (inbox : list frame)
    (s : store) : list event * store * bool :=
  match inbox with
  | [] => ([], s, true)
  | Malformed detail :: _ => ([EvSend (Error detail)], s, false)
  | Request data e :: rest =>
      let '(tr, s1) := process_streaming_chat claude_client data up e s in
      let '(tr', s2, disconnected) := receive_loop claude_client up rest s1 in
      (tr ++ tr', s2, disconnected)
  end.

(** [websocket_endpoint] for the socket [websocket]: it is registered in
    [active_connections], and removed when the client disconnects. *)
Definition websocket_endpoint (claude_client : bool) (up : upstream)
    (websocket : nat) (active_connections : list nat) (inbox : list frame)
    (s : store) : list event * store * list nat :=
  let active := active_connections ++ [websocket] in
  let '(tr, s', disconnected) := receive_loop claude_client up inbox s in
  (tr, s', if disconnected then remove_first websocket active else active).

(** Every message refers to a conversation of the store. *)
Definition references_valid (s : store) : Prop :=
  forall m, In m (messages s) ->
            exists c, In c (conversations s) /\ conv_id c = msg_conversation_id m.

(** The messages of a conversation, in insertion order. *)
Definition owned (cid : str) (s : store) : list Message :=
  List.filter (fun m => str_eqb (msg_conversation_id m) cid) (messages s).

(** A notification that ends a turn. *)
Definition is_terminal (n : notification) : bool :=
  is_complete n || is_error n.

Definition is_status (n : notification) : bool :=
  match n with Status _ => true | _ => false end.

(** The store a chat turn of request [r] can leave behind: the store as it
    was, the store with the user row, or the store with the user row, the
    assistant row and the new updated time; the rows are those the table
    keeps of the rows the turn builds. *)
Definition turn_outcome (r : ChatRequest) (e : chat_env) (s s' : store) : Prop :=
  s' = s \/
  exists cid c um,
    conversation_id r = Some cid /\ cid <> [] /\
    query_conversation cid s = Some c /\
    stored_message (user_message cid r e) = Some um /\
    (s' = with_message um s \/
     exists text am,
       text <> [] /\
       stored_message (assistant_message cid r e text) = Some am /\
       s' = with_reply cid am (updated_time e) (assistant_flush_time e)
              (with_message um s)).



(** The terminal notifications among those sent. *)
Definition terminals (tr : list event) : list notification :=
  List.filter is_terminal (sent tr).

(** A run of well-formed frames. *)
Definition requests (turns : list (ws_data * chat_env)) : list frame :=
  map (fun turn => Request (fst turn) (snd turn)) turns.

(* ===================================================================== *)
(** ** Strings *)
(* ===================================================================== *)

Lemma str_eqb_eq (a b : str) : str_eqb a b = true <-> a = b.
Proof.
  revert b. induction a as [|x a IH]; intros [|y b]; simpl;
    try (split; [discriminate | congruence]); [tauto|].
  rewrite andb_true_iff, N.eqb_eq, IH. split; [intros [-> ->] | intros [= -> ->]]; auto.
Qed.

Lemma str_eqb_refl (a : str) : str_eqb a a = true.
Proof. now apply str_eqb_eq. Qed.

Lemma str_eqb_neq (a b : str) : str_eqb a b = false <-> a <> b.
Proof.
  rewrite <- str_eqb_eq. destruct (str_eqb a b); split; congruence.
Qed.

Lemma append_nil_r (s : str) : s ++ [] = s.
Proof. induction s as [|c s IH]; simpl; [reflexivity | f_equal; exact IH]. Qed.

Lemma append_assoc (a b c : str) : (a ++ b) ++ c = a ++ (b ++ c).
Proof. induction a as [|x a IH]; simpl; [reflexivity | f_equal; exact IH]. Qed.

Lemma concat_all_app (xs ys : list str) :
  concat_all (xs ++ ys) = concat_all xs ++ concat_all ys.
Proof.
  induction xs as [|x xs IH]; simpl; [reflexivity|].
  now rewrite IH, append_assoc.
Qed.

Lemma truthy_true (s : str) : truthy s = true <-> s <> [].
Proof. destruct s; simpl; split; intros; congruence. Qed.

(* ===================================================================== *)
(** ** The registry *)
(* ===================================================================== *)

Lemma subscript_sonnet : subscript CLAUDE_MODELS sonnet_id = inr sonnet_config.
Proof. vm_compute. reflexivity. Qed.

Lemma get_model_config_eq (m : str) :
  get_model_config m = inr (default sonnet_config (CLAUDE_MODELS !! m)).
Proof. unfold get_model_config. now rewrite subscript_sonnet. Qed.

Lemma registry_lookup (m : str) (d : model_config) :
  CLAUDE_MODELS !! m = Some d ->
  (m = sonnet_id /\ d = sonnet_config) \/ (m = opus_id /\ d = opus_config).
Proof.
  unfold CLAUDE_MODELS. intros H.
  destruct (decide (sonnet_id = m)) as [<-|Hs].
  - rewrite lookup_insert_eq in H. left. split; congruence.
  - rewrite lookup_insert_ne in H by exact Hs.
    destruct (decide (opus_id = m)) as [<-|Ho].
    + rewrite lookup_insert_eq in H. right. split; congruence.
    + rewrite lookup_insert_ne in H by exact Ho.
      rewrite lookup_empty in H. discriminate.
Qed.

(** C9. Looking a model identifier up in the registry never fails: for every
    identifier the lookup returns a descriptor, the registered one when the
    identifier is registered, and otherwise the descriptor of the default
    model (64000 output tokens, thinking supported). *)
Theorem lookup_never_fails (m : str) :
  get_model_config m =
    inr (match CLAUDE_MODELS !! m with Some d => d | None => sonnet_config end)
  /\ (CLAUDE_MODELS !! m = None ->
      exists d, get_model_config m = inr d /\ d = sonnet_config /\
                max_tokens d = 64000%Z /\ supports_thinking d = true).
Proof.
  split.
  - rewrite get_model_config_eq. destruct (CLAUDE_MODELS !! m); reflexivity.
  - intros Hm. exists sonnet_config. rewrite get_model_config_eq, Hm.
    repeat split; reflexivity.
Qed.

Lemma lookup_never_fails_witness :
  exists d, get_model_config "gpt-4" = inr d /\ d = sonnet_config /\
            max_tokens d = 64000%Z /\ supports_thinking d = true.
Proof.
  apply (proj2 (lookup_never_fails "gpt-4")). vm_compute. reflexivity.
Defined.

(* ===================================================================== *)
(** ** Traces *)
(* ===================================================================== *)

Lemma sent_app (a b : list event) : sent (a ++ b) = sent a ++ sent b.
Proof.
  induction a as [|ev a IH]; simpl; [reflexivity|].
  destruct ev; simpl; now rewrite IH.
Qed.

Lemma upstream_calls_app (a b : list event) :
  upstream_calls (a ++ b) = upstream_calls a ++ upstream_calls b.
Proof.
  induction a as [|ev a IH]; simpl; [reflexivity|].
  destruct ev; simpl; now rewrite IH.
Qed.

Lemma sleeps_app (a b : list event) : sleeps (a ++ b) = sleeps a ++ sleeps b.
Proof.
  induction a as [|ev a IH]; simpl; [reflexivity|].
  destruct ev; simpl; now rewrite IH.
Qed.

Lemma persisted_app (a b : list event) :
  persisted (a ++ b) = persisted a ++ persisted b.
Proof.
  induction a as [|ev a IH]; simpl; [reflexivity|].
  destruct ev as [| | |ws [|]| |]; simpl; rewrite IH; try reflexivity.
  now rewrite app_assoc.
Qed.

Lemma pauses_quiet_prefix (pre tr : list event) (c : nat) :
  forallb quiet pre = true -> pauses c (pre ++ tr) = pauses c tr.
Proof.
  induction pre as [|ev pre IH]; simpl; [reflexivity|].
  intros H. apply andb_prop in H as [Hq Hpre].
  destruct ev as [[]| | | | |]; simpl in Hq; try discriminate; now apply IH.
Qed.

Lemma pauses_quiet (tr : list event) (c : nat) :
  forallb quiet tr = true -> pauses c tr = [].
Proof.
  intros H. rewrite <- (app_nil_r tr). now rewrite pauses_quiet_prefix.
Qed.

Lemma sleeps_quiet (tr : list event) : forallb quiet tr = true -> sleeps tr = [].
Proof.
  induction tr as [|ev tr IH]; simpl; [reflexivity|].
  intros H. apply andb_prop in H as [Hq Htr].
  destruct ev as [[]| | | | |]; simpl in Hq; try discriminate; now apply IH.
Qed.

(* ===================================================================== *)
(** ** The streaming loop *)
(* ===================================================================== *)

Section StreamLoop.
Variable model_id : str.

Lemma stream_loop_cons (f : str) (fs : list str) (acc : str) (c : nat) :
  stream_loop model_id (f :: fs) acc c =
    (EvSend (Chunk f (acc ++ f)) :: pause_after model_id (S c)
       ++ fst (stream_loop model_id fs (acc ++ f) (S c)),
     snd (stream_loop model_id fs (acc ++ f) (S c))).
Proof.
  simpl. destruct (stream_loop model_id fs (acc ++ f) (S c)) as [tr final].
  reflexivity.
Qed.

Lemma stream_loop_final (fs : list str) (acc : str) (c : nat) :
  snd (stream_loop model_id fs acc c) = acc ++ concat_all fs.
Proof.
  revert acc c. induction fs as [|f fs IH]; intros acc c.
  - simpl. now rewrite append_nil_r.
  - rewrite stream_loop_cons. cbn [snd concat_all]. rewrite IH. apply append_assoc.
Qed.

Lemma sent_pause_after (k : nat) : sent (pause_after model_id k) = [].
Proof. unfold pause_after. now destruct (_ && _). Qed.

Lemma stream_loop_sent (fs : list str) (acc : str) (c : nat) :
  sent (fst (stream_loop model_id fs acc c)) = chunks_from acc fs.
Proof.
  revert acc c. induction fs as [|f fs IH]; intros acc c; [reflexivity|].
  rewrite stream_loop_cons. simpl.
  now rewrite sent_app, sent_pause_after, IH.
Qed.

Lemma stream_loop_upstream (fs : list str) (acc : str) (c : nat) :
  upstream_calls (fst (stream_loop model_id fs acc c)) = [].
Proof.
  revert acc c. induction fs as [|f fs IH]; intros acc c; [reflexivity|].
  rewrite stream_loop_cons. simpl. rewrite upstream_calls_app, IH.
  unfold pause_after. now destruct (_ && _).
Qed.

Lemma stream_loop_persisted (fs : list str) (acc : str) (c : nat) :
  persisted (fst (stream_loop model_id fs acc c)) = [].
Proof.
  revert acc c. induction fs as [|f fs IH]; intros acc c; [reflexivity|].
  rewrite stream_loop_cons. simpl. rewrite persisted_app, IH.
  unfold pause_after. now destruct (_ && _).
Qed.

(** The loop's trace is empty or starts with a notification. *)
Lemma stream_loop_head (fs : list str) (acc : str) (c : nat) :
  match fst (stream_loop model_id fs acc c) with
  | EvSleep _ :: _ => False
  | _ => True
  end.
Proof.
  destruct fs as [|f fs]; [exact I|]. now rewrite stream_loop_cons.
Qed.

(** The pauses of the loop, seen from the trace: the positions between
    [c+1] and [c+n] that are multiples of ten, for the Opus model. *)
Lemma stream_loop_pauses (fs : list str) (acc : str) (c : nat)
    (post : list event) :
  forallb quiet post = true ->
  pauses c (fst (stream_loop model_id fs acc c) ++ post) =
    List.filter (fun k => str_eqb model_id opus_id && Nat.eqb (k mod 10) 0)
           (seq (S c) (length fs)).
Proof.
  intros Hpost. revert acc c.
  induction fs as [|f fs IH]; intros acc c.
  - simpl. now apply pauses_quiet.
  - rewrite stream_loop_cons.
    cbn [fst app pauses length seq List.filter]. unfold pause_after.
    destruct (str_eqb model_id opus_id && Nat.eqb (S c mod 10) 0) eqn:Hk.
    + cbn [app pauses]. now rewrite IH.
    + cbn [app].
      pose proof (stream_loop_head fs (acc ++ f) (S c)) as Hhd.
      specialize (IH (acc ++ f) (S c)).
      destruct (fst (stream_loop model_id fs (acc ++ f) (S c))) as [|ev tr].
      * cbn [app] in *. destruct post as [|ev post]; [exact IH|].
        simpl in Hpost. apply andb_prop in Hpost as [Hq _].
        destruct ev as [[]| | | | |]; simpl in Hq; try discriminate; exact IH.
      * cbn [app] in *. destruct ev; try contradiction; exact IH.
Qed.

Lemma stream_loop_sleeps (fs : list str) (acc : str) (c : nat) :
  sleeps (fst (stream_loop model_id fs acc c)) =
    map (fun _ => 10%Z)
        (List.filter (fun k => str_eqb model_id opus_id && Nat.eqb (k mod 10) 0)
                (seq (S c) (length fs))).
Proof.
  revert acc c. induction fs as [|f fs IH]; intros acc c; [reflexivity|].
  rewrite stream_loop_cons.
  cbn [fst sleeps length seq List.filter]. rewrite sleeps_app, IH.
  unfold pause_after.
  now destruct (str_eqb model_id opus_id && Nat.eqb (S c mod 10) 0).
Qed.
End StreamLoop.

(* ===================================================================== *)
(** ** The store *)
(* ===================================================================== *)

Lemma flush_conversation_id (title : str) (upd : option Z) (now : Z)
    (c : Conversation) :
  conv_id (flush_conversation title upd now c) = conv_id c.
Proof. unfold flush_conversation. now destruct (_ || _). Qed.

Lemma flush_conversation_title (title : str) (upd : option Z) (now : Z)
    (c : Conversation) :
  conv_title (flush_conversation title upd now c) = title.
Proof.
  unfold flush_conversation.
  destruct (str_eqb title (conv_title c)) eqn:Ht; simpl.
  - apply str_eqb_eq in Ht. now destruct upd as [t|]; [destruct (Z.eqb _ _)|].
  - reflexivity.
Qed.

(** Writing the title a row already has, with an explicit timestamp, leaves
    the row with exactly that timestamp. *)
Lemma flush_conversation_same_title (t now : Z) (c : Conversation) :
  conv_updated_at (flush_conversation (conv_title c) (Some t) now c) = t.
Proof.
  unfold flush_conversation. rewrite str_eqb_refl. simpl.
  destruct (Z.eqb t (conv_updated_at c)) eqn:Ht; simpl.
  - apply Z.eqb_eq in Ht. congruence.
  - reflexivity.
Qed.


Lemma query_conversation_map (f : Conversation -> Conversation) (cid : str)
    (cs : list Conversation) (ms ms' : list Message) :
  (forall c, conv_id (f c) = conv_id c) ->
  query_conversation cid {| conversations := map f cs; messages := ms' |} =
    option_map f (query_conversation cid {| conversations := cs; messages := ms |}).
Proof.
  intros Hid. unfold query_conversation. simpl.
  induction cs as [|c cs IH]; simpl; [reflexivity|].
  rewrite Hid. now destruct (str_eqb (conv_id c) cid).
Qed.

Lemma query_conversation_In (cid : str) (s : store) (c : Conversation) :
  query_conversation cid s = Some c -> In c (conversations s) /\ conv_id c = cid.
Proof.
  unfold query_conversation. intros H. apply find_some in H as [Hin Heq].
  split; [exact Hin | now apply str_eqb_eq].
Qed.

Lemma query_conversation_None (cid : str) (s : store) (c : Conversation) :
  query_conversation cid s = None -> In c (conversations s) -> conv_id c <> cid.
Proof.
  unfold query_conversation. intros H Hin Heq.
  pose proof (find_none _ _ H c Hin) as Hc. simpl in Hc.
  apply str_eqb_neq in Hc. contradiction.
Qed.

(* ===================================================================== *)
(** ** Saving the two turns *)
(* ===================================================================== *)

Lemma save_user_message_absent (r : ChatRequest) (e : chat_env) (s : store) :
  truthy_opt (conversation_id r) = false ->
  save_user_message r e s = ([], inr s).
Proof.
  unfold save_user_message. destruct (conversation_id r) as [cid|]; simpl;
    [intros ->|]; reflexivity.
Qed.

Lemma fits_le (n : nat) (v : str) : fits n v = true <-> len v <= n.
Proof. unfold fits. apply Nat.leb_le. Qed.

Lemma fits_gt (n : nat) (v : str) : fits n v = false <-> n < len v.
Proof. unfold fits. apply Nat.leb_gt. Qed.

(** A column keeps a value that fits as it is, and refuses only values that
    are too long. *)
Lemma column_fits (n : nat) (v : str) : len v <= n -> column n v = Some v.
Proof. intros H. apply fits_le in H. unfold column. now rewrite H. Qed.

Lemma column_refuses (n : nat) (v : str) : column n v = None -> n < len v.
Proof.
  unfold column. destruct (fits n v) eqn:H; [discriminate|].
  intros _. now apply fits_gt.
Qed.




(** What the table keeps of a message: everything but the model and the
    temperature is as given. *)
Lemma stored_message_fields (m row : Message) :
  stored_message m = Some row ->
  msg_id row = msg_id m /\ msg_conversation_id row = msg_conversation_id m /\
  msg_role row = msg_role m /\ msg_content row = msg_content m /\
  msg_thinking_enabled row = msg_thinking_enabled m /\
  msg_created_at row = msg_created_at m /\
  column 10 (msg_temperature m) = Some (msg_temperature row) /\
  match msg_model m with
  | Some v => exists kept, column 100 v = Some kept /\ msg_model row = Some kept
  | None => msg_model row = None
  end.
Proof.
  unfold stored_message.
  destruct (column 10 (msg_temperature m)) as [t|];
    [|destruct (match msg_model m with Some _ => _ | None => _ end); discriminate].
  destruct (msg_model m) as [v|]; cbn [option_map].
  - destruct (column 100 v) as [kept|]; [|discriminate]. cbn [option_map].
    intros [= <-]. cbn. repeat split. now exists kept.
  - intros [= <-]. cbn. repeat split.
Qed.

Lemma stored_message_fits (m : Message) :
  len (msg_temperature m) <= 10 ->
  match msg_model m with Some v => len v <= 100 | None => True end ->
  stored_message m = Some m.
Proof.
  intros Ht Hm. unfold stored_message. rewrite (column_fits _ _ Ht).
  destruct m as [i c r t [v|] tp th cr]; cbn in *.
  - now rewrite (column_fits _ _ Hm).
  - reflexivity.
Qed.

Lemma stored_user_message (cid : str) (r : ChatRequest) (e : chat_env) :
  len (temperature r) <= 10 ->
  stored_message (user_message cid r e) = Some (user_message cid r e).
Proof. intros H. now apply stored_message_fits. Qed.

Lemma stored_assistant_message (cid : str) (r : ChatRequest) (e : chat_env)
    (text : str) :
  len (temperature r) <= 10 -> len (model r) <= 100 ->
  stored_message (assistant_message cid r e text)
    = Some (assistant_message cid r e text).
Proof. intros Ht Hm. now apply stored_message_fits. Qed.


(** The assistant row of a request whose user row was kept is refused only
    for a model identifier that is longer than its column. *)
Lemma stored_assistant_message_refused (cid : str) (r : ChatRequest)
    (e : chat_env) (text : str) (um : Message) :
  stored_message (user_message cid r e) = Some um ->
  stored_message (assistant_message cid r e text) = None ->
  100 < len (model r).
Proof.
  unfold stored_message.
  cbn [msg_model msg_temperature user_message assistant_message].
  destruct (column 10 (temperature r)); [|discriminate]. intros _.
  destruct (column 100 (model r)) eqn:H; [discriminate|].
  intros _. now apply column_refuses.
Qed.

Lemma save_user_message_stored (r : ChatRequest) (e : chat_env) (s : store)
    (cid : str) (c : Conversation) (um : Message) :
  conversation_id r = Some cid -> truthy cid = true ->
  query_conversation cid s = Some c ->
  stored_message (user_message cid r e) = Some um ->
  save_user_message r e s =
    ([EvCommit [InsertMessage (user_message cid r e)] true],
     inr (with_message um s)).
Proof.
  intros Hcid Ht Hq Hum. unfold save_user_message. rewrite Hcid, Ht.
  cbn [commit apply_write]. rewrite Hum.
  cbn [msg_conversation_id user_message]. now rewrite Hq.
Qed.


(** The user row is refused when the conversation is missing or the column
    refuses the rendering of the temperature. *)
Lemma save_user_message_refused (r : ChatRequest) (e : chat_env) (s : store)
    (cid : str) :
  conversation_id r = Some cid -> truthy cid = true ->
  query_conversation cid s = None \/
  stored_message (user_message cid r e) = None ->
  exists err,
    str_exn err = db_error_detail e /\
    save_user_message r e s =
      ([EvCommit [InsertMessage (user_message cid r e)] false; EvRollback],
       inl err).
Proof.
  intros Hcid Ht Hwhy. unfold save_user_message. rewrite Hcid, Ht.
  cbn [commit apply_write].
  destruct (stored_message (user_message cid r e)) as [um|] eqn:Hum.
  - destruct Hwhy as [Hq|Hq]; [|discriminate].
    cbn [msg_conversation_id user_message]. rewrite Hq.
    now exists (IntegrityError (db_error_detail e)).
  - now exists (DataError (db_error_detail e)).
Qed.

(** The three ways the saving of the user turn can go. *)
Lemma save_user_message_cases (r : ChatRequest) (e : chat_env) (s : store) :
  (truthy_opt (conversation_id r) = false /\
   save_user_message r e s = ([], inr s)) \/
  (exists cid c um,
     conversation_id r = Some cid /\ truthy cid = true /\
     query_conversation cid s = Some c /\
     stored_message (user_message cid r e) = Some um /\
     save_user_message r e s =
       ([EvCommit [InsertMessage (user_message cid r e)] true],
        inr (with_message um s))) \/
  (exists cid err,
     conversation_id r = Some cid /\ truthy cid = true /\
     (query_conversation cid s = None \/
      stored_message (user_message cid r e) = None) /\
     str_exn err = db_error_detail e /\
     save_user_message r e s =
       ([EvCommit [InsertMessage (user_message cid r e)] false; EvRollback],
        inl err)).
Proof.
  destruct (truthy_opt (conversation_id r)) eqn:Hp.
  - right. destruct (conversation_id r) as [cid|] eqn:Hcid; [|discriminate].
    simpl in Hp.
    destruct (query_conversation cid s) as [c|] eqn:Hq;
      [destruct (stored_message (user_message cid r e)) as [um|] eqn:Hum|].
    + left. exists cid, c, um. repeat split; try assumption.
      now apply save_user_message_stored with c.
    + right.
      destruct (save_user_message_refused r e s cid Hcid Hp (or_intror Hum))
        as (err & Herr & Hsave).
      exists cid, err. repeat split; try assumption. now right.
    + right.
      destruct (save_user_message_refused r e s cid Hcid Hp (or_introl Hq))
        as (err & Herr & Hsave).
      exists cid, err. repeat split; try assumption. now left.
  - left. split; [reflexivity | now apply save_user_message_absent].
Qed.

Lemma set_title_same (title : str) (upd : option Z) (now : Z) (c : Conversation) :
  set_title title (flush_conversation title upd now c)
    = flush_conversation title upd now c.
Proof.
  pose proof (flush_conversation_title title upd now c) as H. unfold set_title.
  destruct (flush_conversation title upd now c). cbn in *. now subst.
Qed.

(** The first statement of the commit of the assistant turn writes the
    title the conversation has, and is never refused. *)
Lemma assistant_update_accepted (detail : str) (now t : Z) (cid : str)
    (c : Conversation) (s : store) :
  query_conversation cid s = Some c ->
  apply_write detail now (UpdateConversation cid (conv_title c) (Some t)) s =
    inr {| conversations :=
             map (fun c' => if str_eqb (conv_id c') cid
                            then flush_conversation (conv_title c) (Some t) now c'
                            else c') (conversations s);
           messages := messages s |}.
Proof.
  intros Hq. cbn [apply_write]. rewrite Hq, str_eqb_refl. do 2 f_equal.
  apply map_ext. intros c'. destruct (str_eqb (conv_id c') cid); [|reflexivity].
  apply set_title_same.
Qed.

Lemma save_assistant_message_stored (r : ChatRequest) (e : chat_env)
    (text : str) (s : store) (cid : str) (c : Conversation) (am : Message) :
  conversation_id r = Some cid -> truthy cid = true -> truthy text = true ->
  query_conversation cid s = Some c ->
  stored_message (assistant_message cid r e text) = Some am ->
  save_assistant_message r e text s =
    ([EvCommit [UpdateConversation cid (conv_title c) (Some (updated_time e));
                InsertMessage (assistant_message cid r e text)] true],
     with_reply cid am (updated_time e) (assistant_flush_time e) s).
Proof.
  intros Hcid Ht Htext Hq Ham.
  unfold save_assistant_message, assistant_writes.
  rewrite Hcid, Ht, Htext, Hq. cbn [andb commit].
  rewrite (assistant_update_accepted _ _ _ _ _ _ Hq).
  cbn [apply_write]. rewrite Ham.
  cbn [msg_conversation_id assistant_message].
  rewrite (query_conversation_map _ cid (conversations s) (messages s) (messages s)).
  - replace {| conversations := conversations s; messages := messages s |}
      with s by now destruct s.
    rewrite Hq. cbn [option_map conversations messages].
    unfold with_reply. rewrite Hq. reflexivity.
  - intros c'. destruct (str_eqb (conv_id c') cid); [|reflexivity].
    apply flush_conversation_id.
Qed.


(** The assistant row is refused, and the commit rolled back, when a column
    refuses the model identifier or the temperature. *)
Lemma save_assistant_message_refused (r : ChatRequest) (e : chat_env)
    (text : str) (s : store) (cid : str) (c : Conversation) :
  conversation_id r = Some cid -> truthy cid = true -> truthy text = true ->
  query_conversation cid s = Some c ->
  stored_message (assistant_message cid r e text) = None ->
  let m := assistant_message cid r e text in
  save_assistant_message r e text s =
    ([EvCommit [UpdateConversation cid (conv_title c) (Some (updated_time e));
                InsertMessage m] false; EvRollback], s).
Proof.
  intros Hcid Ht Htext Hq Ham m.
  unfold save_assistant_message, assistant_writes.
  rewrite Hcid, Ht, Htext, Hq. cbn [andb commit].
  rewrite (assistant_update_accepted _ _ _ _ _ _ Hq).
  fold m. cbn [apply_write]. unfold m at 1. now rewrite Ham.
Qed.

(** Without a conversation to refer to, the assistant row is refused. *)
Lemma save_assistant_message_missing (r : ChatRequest) (e : chat_env)
    (text : str) (s : store) (cid : str) :
  conversation_id r = Some cid -> truthy cid = true -> truthy text = true ->
  query_conversation cid s = None ->
  save_assistant_message r e text s =
    ([EvCommit [InsertMessage (assistant_message cid r e text)] false; EvRollback],
     s).
Proof.
  intros Hcid Ht Htext Hq.
  unfold save_assistant_message, assistant_writes.
  rewrite Hcid, Ht, Htext, Hq. cbn [andb commit apply_write].
  destruct (stored_message _); [|reflexivity].
  cbn [msg_conversation_id assistant_message]. now rewrite Hq.
Qed.

Lemma save_assistant_message_skip (r : ChatRequest) (e : chat_env)
    (text : str) (s : store) :
  truthy_opt (conversation_id r) && truthy text = false ->
  save_assistant_message r e text s = ([], s).
Proof.
  unfold save_assistant_message. destruct (conversation_id r) as [cid|]; simpl;
    [intros ->|]; reflexivity.
Qed.

(* ===================================================================== *)
(** ** One streaming turn *)
(* ===================================================================== *)

Lemma chunks_from_seq (fs : list str) (acc : str) :
  chunks_from acc fs =
    map (fun i => Chunk (nth i fs [])
                        (acc ++ concat_all (firstn (S i) fs)))
        (seq 0 (length fs)).
Proof.
  revert acc. induction fs as [|f fs IH]; intros acc; [reflexivity|].
  cbn [chunks_from length seq map nth firstn concat_all].
  rewrite append_nil_r. f_equal.
  rewrite IH, <- seq_shift, map_map. apply map_ext. intros i.
  cbn [nth]. now rewrite append_assoc.
Qed.

Lemma chunks_from_expected (fs : list str) :
  chunks_from [] fs = expected_chunks fs.
Proof. now rewrite chunks_from_seq. Qed.

(** The turn, with the branch on the registry resolved. *)
Lemma process_streaming_chat_eq (data : ws_data) (up : upstream) (e : chat_env)
    (s : store) :
  let r := extract_request data in
  let cfg := resolved r in
  let p := build_params r cfg in
  let fs := fst (up p) in
  let tr1 := fst (stream_loop (model r) fs [] 0) in
  let full := concat_all fs in
  process_streaming_chat true data up e s =
    match save_user_message r e s with
    | (tr0, inl err) => (tr0 ++ [EvClose; EvSend (Error (str_exn err))], s)
    | (tr0, inr s1) =>
        match snd (up p) with
        | None =>
            (tr0 ++ [status_event cfg; EvUpstream p] ++ tr1
                 ++ [EvSend (Complete full (complete_time e))]
                 ++ fst (save_assistant_message r e full s1) ++ [EvClose],
             snd (save_assistant_message r e full s1))
        | Some err =>
            (tr0 ++ [status_event cfg; EvUpstream p] ++ tr1
                 ++ [EvSend (Error (stream_error_text cfg err)); EvClose], s1)
        end
    end.
Proof.
  intros r cfg p fs tr1 full. unfold process_streaming_chat. cbn [negb].
  fold r. destruct (save_user_message r e s) as [tr0 [err|s1]]; [reflexivity|].
  rewrite get_model_config_eq. fold (resolved r). fold cfg. fold p.
  subst fs tr1 full. destruct (up p) as [fs failure]. cbn [fst snd].
  pose proof (stream_loop_final (model r) fs [] 0) as Hfinal.
  destruct (stream_loop (model r) fs [] 0) as [tr1 full].
  cbn [fst snd] in *. subst full. cbn [app].
  destruct failure as [err|]; [reflexivity|].
  now destruct (save_assistant_message r e (concat_all fs) s1).
Qed.

Lemma save_user_message_trace (r : ChatRequest) (e : chat_env) (s : store) :
  sent (fst (save_user_message r e s)) = [] /\
  upstream_calls (fst (save_user_message r e s)) = [] /\
  forallb quiet (fst (save_user_message r e s)) = true.
Proof.
  destruct (save_user_message_cases r e s)
    as [[_ ->]|[(cid & c & um & _ & _ & _ & _ & ->)|
                (cid & err & _ & _ & _ & _ & ->)]]; repeat split.
Qed.

Lemma save_assistant_message_trace (r : ChatRequest) (e : chat_env)
    (text : str) (s : store) :
  sent (fst (save_assistant_message r e text s)) = [] /\
  upstream_calls (fst (save_assistant_message r e text s)) = [] /\
  forallb quiet (fst (save_assistant_message r e text s)) = true.
Proof.
  unfold save_assistant_message.
  destruct (conversation_id r) as [cid|]; [|repeat split].
  destruct (truthy cid && truthy text); [|repeat split].
  destruct (commit _ _ _ _); repeat split.
Qed.

(** When the upstream was called during a turn, the user turn had been
    saved (or there was none to save), and the call was the one built from
    the request. *)
Lemma upstream_called (data : ws_data) (up : upstream) (e : chat_env) (s : store)
    (p : api_params) :
  let r := extract_request data in
  In p (upstream_calls (fst (process_streaming_chat true data up e s))) ->
  p = build_params r (resolved r) /\
  exists tr0 s1, save_user_message r e s = (tr0, inr s1).
Proof.
  intros r. rewrite process_streaming_chat_eq. fold r.
  pose proof (save_user_message_trace r e s) as (_ & Hu & _).
  pose proof (save_assistant_message_trace r e
                (concat_all (fst (up (build_params r (resolved r))))))
    as Ha.
  destruct (save_user_message r e s) as [tr0 [err|s1]]; cbn [fst] in *.
  - rewrite upstream_calls_app, Hu. simpl. contradiction.
  - destruct (snd (up (build_params r (resolved r)))) as [err|]; cbn [fst];
      repeat rewrite upstream_calls_app; rewrite Hu, stream_loop_upstream;
      [|destruct (Ha s1) as (_ & -> & _)]; simpl;
      (intros [<-|[]]; split; [reflexivity | now exists tr0, s1]).
Qed.




(** What the saving of the assistant turn leaves in the store and in the
    trace, in every case. *)
Lemma save_assistant_message_persisted (r : ChatRequest) (e : chat_env)
    (text : str) (s : store) :
  let tr := fst (save_assistant_message r e text s) in
  let s' := snd (save_assistant_message r e text s) in
  messages s' = messages s ++ persisted tr /\
  forall m, In m (persisted tr) ->
            exists cid, conversation_id r = Some cid /\
                        stored_message (assistant_message cid r e text) = Some m.
Proof.
  destruct (truthy_opt (conversation_id r) && truthy text) eqn:Hgo.
  - destruct (conversation_id r) as [cid|] eqn:Hcid; [|discriminate].
    simpl in Hgo. apply andb_prop in Hgo as [Hne Htext].
    destruct (query_conversation cid s) as [c|] eqn:Hq.
    + destruct (stored_message (assistant_message cid r e text)) as [am|] eqn:Ham.
      * rewrite (save_assistant_message_stored r e text s cid c am Hcid Hne Htext
                   Hq Ham).
        cbn [fst snd persisted inserted flat_map app with_reply messages].
        rewrite Ham. cbn [app]. split; [reflexivity|].
        intros m [<-|[]]. now exists cid.
      * rewrite (save_assistant_message_refused r e text s cid c Hcid Hne Htext
                   Hq Ham).
        cbn. split; [now rewrite app_nil_r | contradiction].
    + rewrite (save_assistant_message_missing r e text s cid Hcid Hne Htext Hq).
      cbn. split; [now rewrite app_nil_r | contradiction].
  - rewrite (save_assistant_message_skip r e text s Hgo). cbn.
    split; [now rewrite app_nil_r | contradiction].
Qed.

Lemma save_user_message_persisted (r : ChatRequest) (e : chat_env) (s : store) :
  let tr := fst (save_user_message r e s) in
  match snd (save_user_message r e s) with
  | inr s1 => messages s1 = messages s ++ persisted tr
  | inl _ => persisted tr = []
  end /\
  forall m, In m (persisted tr) ->
            exists cid, conversation_id r = Some cid /\
                        stored_message (user_message cid r e) = Some m.
Proof.
  destruct (save_user_message_cases r e s)
    as [[_ ->]|[(cid & c & um & Hc & _ & _ & Hum & ->)|
                (cid & err & _ & _ & _ & _ & ->)]];
    cbn [fst snd persisted inserted flat_map app].
  - split; [now rewrite app_nil_r | contradiction].
  - rewrite Hum. cbn [app with_message messages].
    split; [reflexivity | intros m [<-|[]]; now exists cid].
  - split; [reflexivity | contradiction].
Qed.

(** The messages of the store after a streaming turn are those before it
    followed by the rows the turn committed, and these are at most what the
    table keeps of the user row and of the assistant row of the request. *)
Lemma streaming_turn_persisted (data : ws_data) (up : upstream) (e : chat_env)
    (s : store) :
  let r := extract_request data in
  let tr := fst (process_streaming_chat true data up e s) in
  let s' := snd (process_streaming_chat true data up e s) in
  messages s' = messages s ++ persisted tr /\
  forall m, In m (persisted tr) ->
            exists cid, conversation_id r = Some cid /\
              (stored_message (user_message cid r e) = Some m \/
               exists p, In p (upstream_calls tr) /\ snd (up p) = None /\
                 stored_message
                   (assistant_message cid r e (concat_all (fst (up p)))) = Some m).
Proof.
  intros r. rewrite process_streaming_chat_eq. fold r.
  set (p := build_params r (resolved r)).
  pose proof (save_assistant_message_trace r e (concat_all (fst (up p)))) as Hat.
  pose proof (save_assistant_message_persisted r e (concat_all (fst (up p)))) as Hap.
  pose proof (save_user_message_trace r e s) as (_ & Hu0 & _).
  pose proof (save_user_message_persisted r e s) as [Hm0 Hp0].
  destruct (save_user_message r e s) as [tr0 [err|s1]]; cbn [fst snd] in *.
  - rewrite persisted_app, Hm0. cbn. split; [now rewrite app_nil_r | contradiction].
  - destruct (snd (up p)) as [err|] eqn:Hfail; cbn [fst snd].
    + repeat rewrite persisted_app. rewrite stream_loop_persisted.
      cbn. rewrite app_nil_r. split; [exact Hm0|].
      intros m Hm. destruct (Hp0 m Hm) as (cid & Hc & Hst). exists cid. auto.
    + destruct (Hap s1) as [Hms Hin]. destruct (Hat s1) as (_ & Hua & _).
      repeat rewrite persisted_app. repeat rewrite upstream_calls_app.
      rewrite stream_loop_persisted, stream_loop_upstream, Hu0, Hua.
      cbn. rewrite app_nil_r. split.
      * rewrite Hms, Hm0. now rewrite app_assoc.
      * intros m Hm. apply in_app_or in Hm as [Hm|Hm].
        -- destruct (Hp0 m Hm) as (cid & Hc & Hst). exists cid. auto.
        -- destruct (Hin m Hm) as (cid & Hc & Hst). exists cid.
           split; [exact Hc|]. right. exists p. split; [now left|].
           split; [exact Hfail | exact Hst].
Qed.

Lemma expected_chunks_are_chunks (fs : list str) (n : notification) :
  In n (expected_chunks fs) -> is_chunk n = true.
Proof.
  unfold expected_chunks. intros H. apply in_map_iff in H as (i & <- & _).
  reflexivity.
Qed.

Lemma filter_chunks_expected (fs : list str) :
  List.filter is_chunk (expected_chunks fs) = expected_chunks fs.
Proof.
  apply forallb_filter_id. apply forallb_forall.
  intros n. apply expected_chunks_are_chunks.
Qed.

Lemma expected_chunks_length (fs : list str) :
  length (expected_chunks fs) = length fs.
Proof. unfold expected_chunks. now rewrite length_map, length_seq. Qed.

Lemma filter_none_on_chunks (f : notification -> bool) (fs : list str) :
  (forall n, is_chunk n = true -> f n = false) ->
  List.filter f (expected_chunks fs) = [].
Proof.
  intros Hf. unfold expected_chunks.
  induction (seq 0 (length fs)) as [|i l IH]; [reflexivity|].
  cbn [map List.filter]. now rewrite (Hf (chunk_at fs i)).
Qed.

(** C2. A streaming turn whose upstream call raises [err] after yielding the
    [k] fragments [fs]: the client receives the status notification, the [k]
    chunk notifications and then one error notification; it receives no
    complete notification; the turn commits no assistant message. *)
Theorem streaming_turn_fails (data : ws_data) (up : upstream) (e : chat_env)
    (s : store) (p : api_params) (fs : list str) (err : exn) :
  let r := extract_request data in
  let tr := fst (process_streaming_chat true data up e s) in
  let s' := snd (process_streaming_chat true data up e s) in
  In p (upstream_calls tr) ->
  up p = (fs, Some err) ->
  sent tr =
    Status ("Processing with " ++ name (resolved r) ++ "...")
      :: expected_chunks fs ++ [Error (stream_error_text (resolved r) err)]
  /\ length (List.filter is_chunk (sent tr)) = length fs
  /\ length (List.filter is_error (sent tr)) = 1
  /\ List.filter is_complete (sent tr) = []
  /\ messages s' = messages s ++ persisted tr
  /\ forall m, In m (persisted tr) -> msg_role m = user.
Proof.
  intros r tr s' Hcall Hup.
  destruct (upstream_called data up e s p Hcall) as [Hp (tr0 & s1 & Hsave)].
  fold r in Hp, Hsave. subst p.
  pose proof (process_streaming_chat_eq data up e s) as Heq. cbv zeta in Heq.
  fold r in Heq. rewrite Hsave, Hup in Heq. cbn [fst snd] in Heq.
  pose proof (save_user_message_trace r e s) as (Hs0 & _ & _).
  pose proof (save_user_message_persisted r e s) as [_ Hu].
  rewrite Hsave in Hs0, Hu. cbn [fst] in Hs0, Hu.
  assert (Hsent : sent tr =
    Status ("Processing with " ++ name (resolved r) ++ "...")
      :: expected_chunks fs ++ [Error (stream_error_text (resolved r) err)]).
  { subst tr. rewrite Heq. cbn [fst].
    repeat rewrite sent_app. rewrite Hs0, stream_loop_sent.
    now rewrite chunks_from_expected. }
  split; [exact Hsent|]. rewrite Hsent.
  cbn [List.filter is_chunk is_error is_complete].
  repeat rewrite List.filter_app.
  cbn [List.filter is_chunk is_error is_complete].
  rewrite filter_chunks_expected.
  rewrite (filter_none_on_chunks is_error), (filter_none_on_chunks is_complete)
    by (intros [] Hn; (discriminate || reflexivity)).
  split; [now rewrite app_nil_r, expected_chunks_length|].
  split; [reflexivity|]. split; [reflexivity|].
  destruct (streaming_turn_persisted data up e s) as [Hms Hin].
  split; [exact Hms|].
  intros m Hm. destruct (Hin m Hm) as (cid & _ & [Hst|(p' & Hp' & Hnone & _)]).
  - now destruct (stored_message_fields _ _ Hst) as (_ & _ & -> & _).
  - apply upstream_called in Hp' as [-> _]. fold r in Hnone.
    rewrite Hup in Hnone. discriminate.
Qed.

(* ===================================================================== *)
(** ** Two turns on sample inputs *)
(* ===================================================================== *)


Lemma streaming_turn_fails_witness :
  let tr := fst (process_streaming_chat true (sample_data (Some (lit "c-1")) None)
                   broken_upstream sample_env sample_store) in
  sent tr = [Status "Processing with Claude 4 Sonnet..."; Chunk "Hel" "Hel";
             Chunk "lo" "Hello";
             Error "Streaming error with Claude 4 Sonnet: overloaded"].
Proof.
  pose proof (streaming_turn_fails (sample_data (Some (lit "c-1")) None)
                broken_upstream sample_env sample_store
                (build_params (extract_request (sample_data (Some (lit "c-1")) None))
                              sonnet_config)
                [lit "Hel"; lit "lo"] (UpstreamError "overloaded")) as H.
  cbv zeta in H.
  destruct H as [Hsent _]; [vm_compute; now left | reflexivity |].
  cbv zeta. rewrite Hsent. vm_compute. reflexivity.
Defined.

(* ===================================================================== *)
(** ** A user turn that cannot be saved *)
(* ===================================================================== *)




(* ===================================================================== *)
(** ** Pacing *)
(* ===================================================================== *)

Lemma sent_quiet_no_chunk (tr : list event) :
  forallb quiet tr = true -> List.filter is_chunk (sent tr) = [].
Proof.
  induction tr as [|ev tr IH]; [reflexivity|].
  cbn [forallb]. intros H. apply andb_prop in H as [Hq Htr].
  destruct ev as [[]| | | | |]; cbn in *; try discriminate; now apply IH.
Qed.

Lemma filter_chunks_from (acc : str) (fs : list str) :
  List.filter is_chunk (chunks_from acc fs) = chunks_from acc fs /\
  length (chunks_from acc fs) = length fs.
Proof.
  revert acc. induction fs as [|f fs IH]; intros acc; [now split|].
  cbn. destruct (IH (acc ++ f)) as [-> ->]. now split.
Qed.

(** A trace made of the loop between two quiet parts. *)
Lemma loop_between_quiet (model_id : str) (fs : list str)
    (pre post : list event) :
  forallb quiet pre = true -> forallb quiet post = true ->
  let tr := pre ++ fst (stream_loop model_id fs [] 0) ++ post in
  pauses 0 tr = paced model_id (length fs) /\
  sleeps tr = map (fun _ => 10%Z) (paced model_id (length fs)) /\
  length (List.filter is_chunk (sent tr)) = length fs.
Proof.
  intros Hpre Hpost tr. subst tr. split; [|split].
  - rewrite pauses_quiet_prefix by exact Hpre. now apply stream_loop_pauses.
  - repeat rewrite sleeps_app.
    rewrite (sleeps_quiet pre Hpre), (sleeps_quiet post Hpost), app_nil_r.
    apply stream_loop_sleeps.
  - repeat rewrite sent_app. repeat rewrite List.filter_app.
    rewrite (sent_quiet_no_chunk pre Hpre), (sent_quiet_no_chunk post Hpost).
    rewrite stream_loop_sent, app_nil_r. cbn [app].
    destruct (filter_chunks_from [] fs) as [-> ->]. reflexivity.
Qed.

(** Every streaming turn has that form. *)
Lemma streaming_turn_form (data : ws_data) (up : upstream) (e : chat_env)
    (s : store) :
  exists pre post fs,
    fst (process_streaming_chat true data up e s)
      = pre ++ fst (stream_loop (model (extract_request data)) fs [] 0)
            ++ post
    /\ forallb quiet pre = true /\ forallb quiet post = true.
Proof.
  rewrite process_streaming_chat_eq. set (r := extract_request data).
  pose proof (save_user_message_trace r e s) as (_ & _ & Hq0).
  destruct (save_user_message r e s) as [tr0 [err|s1]]; cbn [fst] in *.
  - exists tr0, [EvClose; EvSend (Error (str_exn err))], [].
    repeat split; assumption.
  - set (p := build_params r (resolved r)).
    pose proof (save_assistant_message_trace r e (concat_all (fst (up p))) s1)
      as (_ & _ & Hq2).
    destruct (snd (up p)) as [err|]; cbn [fst].
    + eexists (tr0 ++ [status_event (resolved r); EvUpstream p]), _, (fst (up p)).
      split; [rewrite <- app_assoc; reflexivity|].
      split; [|reflexivity].
      rewrite forallb_app, Hq0. reflexivity.
    + eexists (tr0 ++ [status_event (resolved r); EvUpstream p]), _, (fst (up p)).
      split; [rewrite <- app_assoc; reflexivity|].
      split; [rewrite forallb_app, Hq0; reflexivity|].
      cbn [app forallb quiet andb]. rewrite forallb_app, Hq2. reflexivity.
Qed.

Lemma In_paced (model_id : str) (n k : nat) :
  In k (paced model_id n) <-> model_id = opus_id /\ 1 <= k <= n /\ k mod 10 = 0.
Proof.
  unfold paced. rewrite filter_In, in_seq, andb_true_iff.
  rewrite str_eqb_eq, Nat.eqb_eq. intuition lia.
Qed.

(** C8. In a streaming turn a pause comes right after the k-th chunk
    notification exactly when the model is the Opus model and k is a multiple
    of ten; every pause of the turn is one of these and lasts 10 ms; a turn
    for another model has no pause. *)
Theorem pause_every_tenth_chunk (data : ws_data) (up : upstream) (e : chat_env)
    (s : store) :
  let r := extract_request data in
  let tr := fst (process_streaming_chat true data up e s) in
  let n := length (List.filter is_chunk (sent tr)) in
  (forall k, In k (pauses 0 tr) <->
             model r = opus_id /\ 1 <= k <= n /\ k mod 10 = 0)
  /\ sleeps tr = map (fun _ => 10%Z) (pauses 0 tr)
  /\ (model r <> opus_id -> sleeps tr = []).
Proof.
  intros r tr n.
  destruct (streaming_turn_form data up e s) as (pre & post & fs & Htr & Hpre & Hpost).
  fold r tr in Htr.
  destruct (loop_between_quiet (model r) fs pre post Hpre Hpost) as (Hp & Hs & Hn).
  rewrite <- Htr in Hp, Hs, Hn. fold n in Hn.
  rewrite Hp, Hs, Hn. split; [|split].
  - intros k. apply In_paced.
  - reflexivity.
  - intros Hm. destruct (paced (model r) (length fs)) as [|k l] eqn:Hl;
      [reflexivity|].
    assert (Hk : In k (paced (model r) (length fs))) by (rewrite Hl; now left).
    apply In_paced in Hk as [Hk _]. contradiction.
Qed.

Lemma pause_every_tenth_chunk_witness :
  pauses 0 (fst (process_streaming_chat true (sample_data None (Some opus_id))
                   twelve_fragments sample_env sample_store)) = [10]
  /\ sleeps (fst (process_streaming_chat true (sample_data None (Some opus_id))
                    twelve_fragments sample_env sample_store)) = [10%Z].
Proof.
  destruct (pause_every_tenth_chunk (sample_data None (Some opus_id))
              twelve_fragments sample_env sample_store) as (_ & Hs & _).
  cbv zeta in Hs. split; [vm_compute; reflexivity|].
  rewrite Hs. vm_compute. reflexivity.
Defined.

(* ===================================================================== *)
(** ** The non-streaming endpoint *)
(* ===================================================================== *)

Lemma chat_endpoint_eq (r : ChatRequest) (up : upstream) (e : chat_env) (s : store) :
  let p := build_params r (resolved r) in
  let full := concat_all (fst (up p)) in
  chat_endpoint true r up e s =
    match save_user_message r e s with
    | (tr0, inl err) => (HTTPException 500 (str_exn err), tr0, s)
    | (tr0, inr s1) =>
        match snd (up p) with
        | Some err => (HTTPException 500 (str_exn err), tr0 ++ [EvUpstream p], s1)
        | None =>
            (Ok {| cr_message := full; cr_timestamp := complete_time e |},
             tr0 ++ [EvUpstream p] ++ fst (save_assistant_message r e full s1),
             snd (save_assistant_message r e full s1))
        end
    end.
Proof.
  intros p full. unfold chat_endpoint. cbn [negb].
  destruct (save_user_message r e s) as [tr0 [err|s1]]; [reflexivity|].
  rewrite get_model_config_eq. fold (resolved r). fold p. subst full.
  destruct (up p) as [fs [err|]]; cbn [fst snd]; [reflexivity|].
  now destruct (save_assistant_message r e (concat_all fs) s1).
Qed.

(** What the non-streaming endpoint sends upstream and commits. *)
Lemma chat_endpoint_effects (r : ChatRequest) (up : upstream) (e : chat_env)
    (s : store) :
  let tr := snd (fst (chat_endpoint true r up e s)) in
  let s' := snd (chat_endpoint true r up e s) in
  (forall p, In p (upstream_calls tr) -> p = build_params r (resolved r)) /\
  messages s' = messages s ++ persisted tr /\
  forall m, In m (persisted tr) ->
    exists cid, conversation_id r = Some cid /\
      (stored_message (user_message cid r e) = Some m \/
       exists text, stored_message (assistant_message cid r e text) = Some m).
Proof.
  rewrite chat_endpoint_eq. set (p := build_params r (resolved r)).
  pose proof (save_user_message_trace r e s) as (_ & Hu0 & _).
  pose proof (save_user_message_persisted r e s) as [Hm0 Hp0].
  destruct (save_user_message r e s) as [tr0 [err|s1]]; cbn [fst snd] in *.
  - split; [rewrite Hu0; contradiction|]. split.
    + rewrite Hm0. now rewrite app_nil_r.
    + intros m Hm. destruct (Hp0 m Hm) as (cid & Hc & Hst). exists cid. auto.
  - pose proof (save_assistant_message_trace r e (concat_all (fst (up p))) s1)
      as (_ & Hu2 & _).
    pose proof (save_assistant_message_persisted r e (concat_all (fst (up p))) s1)
      as [Hm2 Hp2].
    destruct (snd (up p)) as [err|]; cbn [fst snd];
      repeat rewrite upstream_calls_app; repeat rewrite persisted_app;
      rewrite Hu0; cbn [upstream_calls persisted app].
    + split; [intros p' [<-|[]]; reflexivity|]. split.
      * now rewrite app_nil_r.
      * rewrite app_nil_r. intros m Hm.
        destruct (Hp0 m Hm) as (cid & Hc & Hst). exists cid. auto.
    + rewrite Hu2. split; [intros p' [<-|[]]; reflexivity|]. split.
      * rewrite Hm2, Hm0. now rewrite app_assoc.
      * intros m Hm. apply in_app_or in Hm as [Hm|Hm].
        -- destruct (Hp0 m Hm) as (cid & Hc & Hst). exists cid. auto.
        -- destruct (Hp2 m Hm) as (cid & Hc & Hst). exists cid. eauto.
Qed.







(* ===================================================================== *)
(** ** Stripping and the length gate of the search *)
(* ===================================================================== *)

Lemma count_nonspace_lstrip (s : str) :
  count_nonspace (lstrip s) = count_nonspace s.
Proof.
  induction s as [|c s IH]; [reflexivity|].
  cbn [lstrip count_nonspace]. destruct (is_space c) eqn:Hc.
  - exact IH.
  - cbn [count_nonspace]. now rewrite Hc.
Qed.

Lemma count_nonspace_rstrip (s : str) :
  count_nonspace (rstrip s) = count_nonspace s.
Proof.
  induction s as [|c s IH]; [reflexivity|].
  cbn [rstrip count_nonspace]. destruct (rstrip s) as [|a r] eqn:Hr.
  - cbn [count_nonspace] in IH. rewrite <- IH.
    destruct (is_space c) eqn:Hc; cbn [count_nonspace]; now rewrite ?Hc.
  - cbn [count_nonspace] in *. now rewrite IH.
Qed.

Lemma count_nonspace_strip (s : str) :
  count_nonspace (strip s) = count_nonspace s.
Proof. unfold strip. now rewrite count_nonspace_rstrip, count_nonspace_lstrip. Qed.

Lemma count_nonspace_le_length (s : str) : count_nonspace s <= length s.
Proof.
  induction s as [|c s IH]; cbn; [lia|]. destruct (is_space c); lia.
Qed.

(** A left-stripped string is empty or starts with a non-space character. *)
Lemma lstrip_head (s : str) :
  lstrip s = [] \/
  exists c t, lstrip s = (c :: t) /\ is_space c = false.
Proof.
  induction s as [|c s IH]; [now left|].
  cbn [lstrip]. destruct (is_space c) eqn:Hc; [exact IH|].
  right. now exists c, s.
Qed.

Lemma rstrip_cons_nonspace (c : N) (s : str) :
  is_space c = false -> rstrip (c :: s) = c :: rstrip s.
Proof.
  intros Hc. cbn [rstrip]. destruct (rstrip s); [now rewrite Hc | reflexivity].
Qed.

(** A right-stripped string that is not empty has a non-space character. *)
Lemma rstrip_nonempty_count (s : str) :
  rstrip s <> [] -> 1 <= count_nonspace (rstrip s).
Proof.
  induction s as [|c s IH]; [intros H; now contradiction H|].
  cbn [rstrip]. destruct (rstrip s) as [|a r] eqn:Hr.
  - destruct (is_space c) eqn:Hc; [intros H; now contradiction H|].
    intros _. cbn [count_nonspace]. rewrite Hc. lia.
  - intros _. cbn [count_nonspace] in *.
    assert (1 <= (if is_space a then 0 else 1) + count_nonspace r)
      by (apply IH; discriminate).
    destruct (is_space c); lia.
Qed.

(** The gate [len(q.strip()) < 2] of the search is the count of non-space
    characters being less than two. *)
Lemma strip_length_gate (q : str) :
  len (strip q) < 2 <-> count_nonspace q < 2.
Proof.
  split.
  - intros H. rewrite <- count_nonspace_strip.
    pose proof (count_nonspace_le_length (strip q)). unfold len in H. lia.
  - intros H. rewrite <- count_nonspace_strip in H. unfold strip, len in *.
    destruct (lstrip_head q) as [Hl|(c & t & Hl & Hc)]; rewrite Hl in *;
      [cbn; lia|].
    rewrite rstrip_cons_nonspace in H by exact Hc.
    rewrite rstrip_cons_nonspace by exact Hc.
    cbn [count_nonspace length] in *. rewrite Hc in H.
    destruct (rstrip t) as [|a r] eqn:Hr; [cbn; lia|].
    assert (1 <= count_nonspace (rstrip t))
      by (apply rstrip_nonempty_count; rewrite Hr; discriminate).
    rewrite Hr in *. lia.
Qed.

(** C6. For every query with fewer than two non-space characters, the empty
    query included, the search answers with the empty list and not with an
    error. *)
Theorem short_query_finds_nothing (lower : str -> str) (fold : N -> N)
    (q : str) (s : store) :
  count_nonspace q < 2 -> search_conversations lower fold q s = Ok [].
Proof.
  intros H. apply strip_length_gate in H. unfold search_conversations.
  apply Nat.ltb_lt in H. rewrite H. now rewrite orb_true_r.
Qed.

Lemma short_query_finds_nothing_witness :
  count_nonspace "  a  " < 2 /\
  search_conversations lower_ascii fold_ascii "  a  " sample_store = Ok [] /\
  search_conversations lower_ascii fold_ascii [] sample_store = Ok [] /\
  search_conversations lower_ascii fold_ascii [233%N] sample_store = Ok [] /\
  search_conversations lower_ascii fold_ascii [160%N; 104%N; 160%N] sample_store
    = Ok [].
Proof.
  split; [vm_compute; lia|]. split; [|split; [|split]].
  - apply (short_query_finds_nothing _ _ "  a  "). vm_compute. lia.
  - apply (short_query_finds_nothing _ _ []). vm_compute. lia.
  - apply (short_query_finds_nothing _ _ [233%N]). vm_compute. lia.
  - apply (short_query_finds_nothing _ _ [160%N; 104%N; 160%N]). vm_compute. lia.
Defined.

(* ===================================================================== *)
(** ** [ORDER BY] and [DISTINCT] *)
(* ===================================================================== *)

Section Ordering.
Context {A : Type} (le : A -> A -> bool).
Hypothesis le_total : forall x y, le x y = false -> le y x = true.
Hypothesis le_trans : forall x y z, le x y = true -> le y z = true -> le x z = true.

Lemma insert_by_perm (x : A) (l : list A) : Permutation (x :: l) (insert_by le x l).
Proof.
  induction l as [|y l IH]; cbn [insert_by]; [reflexivity|].
  destruct (le x y); [reflexivity|].
  rewrite perm_swap. now apply perm_skip.
Qed.

Lemma order_by_perm (l : list A) : Permutation l (order_by le l).
Proof.
  induction l as [|x l IH]; cbn [order_by]; [reflexivity|].
  rewrite <- insert_by_perm. now apply perm_skip.
Qed.

Lemma insert_by_sorted (x : A) (l : list A) :
  StronglySorted (fun a b => le a b = true) l ->
  StronglySorted (fun a b => le a b = true) (insert_by le x l).
Proof.
  induction l as [|y l IH]; cbn [insert_by]; intros Hs.
  - constructor; [constructor | constructor].
  - apply StronglySorted_inv in Hs as [Hs Hy].
    destruct (le x y) eqn:Hxy.
    + constructor; [now constructor|].
      constructor; [exact Hxy|].
      revert Hy. apply List.Forall_impl. intros z Hz. now apply le_trans with y.
    + constructor; [now apply IH|].
      apply (Permutation_Forall (insert_by_perm x l)).
      constructor; [now apply le_total | exact Hy].
Qed.

Lemma order_by_sorted (l : list A) :
  StronglySorted (fun a b => le a b = true) (order_by le l).
Proof.
  induction l as [|x l IH]; cbn [order_by]; [constructor|].
  now apply insert_by_sorted.
Qed.



Lemma order_by_length (l : list A) : length (order_by le l) = length l.
Proof. symmetry. apply Permutation_length, order_by_perm. Qed.
End Ordering.



Lemma updated_desc_total (x y : Conversation) :
  updated_desc x y = false -> updated_desc y x = true.
Proof. unfold updated_desc. rewrite Z.leb_gt, Z.leb_le. lia. Qed.

Lemma updated_desc_trans (x y z : Conversation) :
  updated_desc x y = true -> updated_desc y z = true -> updated_desc x z = true.
Proof. unfold updated_desc. rewrite !Z.leb_le. lia. Qed.

Lemma created_asc_total (x y : Message) :
  created_asc x y = false -> created_asc y x = true.
Proof. unfold created_asc. rewrite Z.leb_gt, Z.leb_le. lia. Qed.

(* ===================================================================== *)
(** ** [LIKE] patterns without special characters *)
(* ===================================================================== *)


Section Like.
Variable fold : N -> N.





End Like.

(* ===================================================================== *)
(** ** The search *)
(* ===================================================================== *)



Lemma StronglySorted_impl {A} (R R' : A -> A -> Prop) (l : list A) :
  (forall a b, R a b -> R' a b) -> StronglySorted R l -> StronglySorted R' l.
Proof.
  intros HR. induction 1 as [|a l Hs IH Hf]; constructor; [exact IH|].
  revert Hf. apply List.Forall_impl. intros b. apply HR.
Qed.

(** C5, where the code departs from the substring search it sets out to do:
    the query [__] has two non-space characters and finds the conversation
    titled [hi], which does not contain it.  The query is put between two
    [%] as it is, without escaping, and [_] stands for any character in a
    pattern.  This holds for every lower-case mapping that leaves [__] as it
    is and every folding that tells [h] from [_]. *)
Theorem wildcard_query_overmatches (lower : str -> str) (fold : N -> N) :
  lower "__" = "__" -> fold 104%N <> fold 95%N ->
  2 <= count_nonspace "__" /\
  search_conversations lower fold "__" sample_store = Ok [sample_conversation] /\
  ~ matches_query fold "__" sample_store sample_conversation.
Proof.
  intros Hlower Hfold.
  split; [vm_compute; lia|]. split.
  - unfold search_conversations.
    change (strip "__") with (lit "__"). rewrite Hlower. reflexivity.
  - intros [(pre & mid & post & Ht & Hm)|(m & [] & _)].
    destruct mid as [|a [|b [|c mid]]]; try discriminate.
    cbn in Ht, Hm. injection Hm as Ha Hb.
    destruct pre as [|x [|y pre]]; cbn in Ht.
    + injection Ht as Hx Hy _. subst a. contradiction.
    + destruct post; discriminate.
    + injection Ht as _ _ Ht. destruct pre; discriminate.
Qed.

Lemma wildcard_query_overmatches_witness :
  search_conversations lower_ascii fold_ascii "__" sample_store
    = Ok [sample_conversation].
Proof.
  refine (proj1 (proj2 (wildcard_query_overmatches lower_ascii fold_ascii _ _)));
    vm_compute; [reflexivity | discriminate].
Defined.



(* ===================================================================== *)
(** ** Words *)
(* ===================================================================== *)


Lemma append_nonempty (a : str) (c : N) :
  a ++ (c :: []) <> [].
Proof. destruct a; discriminate. Qed.








Lemma append_length (a b : str) :
  length (a ++ b) = length a + length b.
Proof. induction a as [|c a IH]; cbn; [reflexivity | now rewrite IH]. Qed.


(* ===================================================================== *)
(** ** Title generation *)
(* ===================================================================== *)

Lemma created_asc_trans (x y z : Message) :
  created_asc x y = true -> created_asc y z = true -> created_asc x z = true.
Proof. unfold created_asc. rewrite !Z.leb_le. lia. Qed.



Lemma with_stored_title_same (cid title : str) (upd : option Z) (now : Z)
    (s : store) :
  with_stored_title cid title title upd now s = with_title cid title upd now s.
Proof.
  unfold with_stored_title, with_title. f_equal. apply map_ext. intros c.
  destruct (str_eqb (conv_id c) cid); [apply set_title_same | reflexivity].
Qed.

(** The commit of a new title: the title is written when it is another one
    than the one loaded, and the commit is refused when its column refuses
    it. *)
Lemma commit_title (detail : str) (now : Z) (cid title : str) (upd : option Z)
    (s : store) (c : Conversation) :
  query_conversation cid s = Some c ->
  commit detail now [UpdateConversation cid title upd] s =
    match (if str_eqb title (conv_title c) then Some title
           else column 255 title) with
    | Some stored => inr (with_stored_title cid title stored upd now s)
    | None => inl (DataError detail)
    end.
Proof.
  intros Hq. cbn [commit apply_write]. rewrite Hq.
  now destruct (if str_eqb title (conv_title c) then _ else _).
Qed.


Lemma commit_title_same (detail : str) (now : Z) (cid title : str)
    (upd : option Z) (s : store) (c : Conversation) :
  query_conversation cid s = Some c -> title = conv_title c ->
  commit detail now [UpdateConversation cid title upd] s =
    inr (with_title cid title upd now s).
Proof.
  intros Hq Heq. rewrite (commit_title _ _ _ _ _ _ c Hq).
  apply str_eqb_eq in Heq. rewrite Heq. now rewrite with_stored_title_same.
Qed.













(* ===================================================================== *)
(** ** The updated time of a conversation *)
(* ===================================================================== *)






(* ===================================================================== *)
(** ** What a chat turn leaves in the store *)
(* ===================================================================== *)

Lemma save_assistant_message_store (r : ChatRequest) (e : chat_env)
    (text : str) (s : store) :
  snd (save_assistant_message r e text s) = s \/
  exists cid c am,
    conversation_id r = Some cid /\ cid <> [] /\
    text <> [] /\ query_conversation cid s = Some c /\
    stored_message (assistant_message cid r e text) = Some am /\
    snd (save_assistant_message r e text s)
      = with_reply cid am (updated_time e) (assistant_flush_time e) s.
Proof.
  destruct (truthy_opt (conversation_id r) && truthy text) eqn:Hgo.
  - destruct (conversation_id r) as [cid|] eqn:Hcid; [|discriminate].
    simpl in Hgo. apply andb_prop in Hgo as [Hne Htext].
    destruct (query_conversation cid s) as [c|] eqn:Hq.
    + destruct (stored_message (assistant_message cid r e text)) as [am|] eqn:Ham.
      * right. exists cid, c, am.
        rewrite (save_assistant_message_stored r e text s cid c am Hcid Hne Htext
                   Hq Ham).
        repeat split; try (now apply truthy_true); assumption.
      * left. now rewrite (save_assistant_message_refused r e text s cid c Hcid
                             Hne Htext Hq Ham).
    + left. now rewrite (save_assistant_message_missing r e text s cid Hcid Hne
                           Htext Hq).
  - left. now rewrite (save_assistant_message_skip r e text s Hgo).
Qed.

Lemma turn_outcome_after_user (r : ChatRequest) (e : chat_env) (s s1 : store)
    (tr0 : list event) (text : str) :
  save_user_message r e s = (tr0, inr s1) ->
  turn_outcome r e s s1 /\
  turn_outcome r e s (snd (save_assistant_message r e text s1)).
Proof.
  intros Hsave.
  destruct (save_user_message_cases r e s)
    as [[Habs H]|[(cid & c & um & Hcid & Hne & Hq & Hum & H)
                 |(cid & err & _ & _ & _ & _ & H)]];
    rewrite Hsave in H; [| |discriminate].
  - injection H as _ <-. split; [now left|]. left.
    rewrite save_assistant_message_skip; [reflexivity | now rewrite Habs].
  - injection H as _ ->. apply truthy_true in Hne.
    split; [right; exists cid, c, um; repeat split; try assumption; now left|].
    right. exists cid, c, um. repeat split; try assumption.
    destruct (save_assistant_message_store r e text (with_message um s))
      as [->|(cid' & c' & am & Hcid' & _ & Htext & _ & Ham & ->)]; [now left|].
    rewrite Hcid in Hcid'. injection Hcid' as <-.
    right. now exists text, am.
Qed.

(** The store after a streaming turn. *)
Lemma streaming_turn_outcome (claude_client : bool) (data : ws_data)
    (up : upstream) (e : chat_env) (s : store) :
  turn_outcome (extract_request data) e s
    (snd (process_streaming_chat claude_client data up e s)).
Proof.
  destruct claude_client; [|now left].
  rewrite process_streaming_chat_eq. set (r := extract_request data).
  set (p := build_params r (resolved r)).
  destruct (save_user_message r e s) as [tr0 [err|s1]] eqn:Hsave; [now left|].
  destruct (turn_outcome_after_user r e s s1 tr0 (concat_all (fst (up p))) Hsave)
    as [H1 H2].
  now destruct (snd (up p)).
Qed.

(** The store after a non-streaming turn. *)
Lemma chat_turn_outcome (claude_client : bool) (r : ChatRequest)
    (up : upstream) (e : chat_env) (s : store) :
  turn_outcome r e s (snd (chat_endpoint claude_client r up e s)).
Proof.
  destruct claude_client; [|now left].
  rewrite chat_endpoint_eq. set (p := build_params r (resolved r)).
  destruct (save_user_message r e s) as [tr0 [err|s1]] eqn:Hsave; [now left|].
  destruct (turn_outcome_after_user r e s s1 tr0 (concat_all (fst (up p))) Hsave)
    as [H1 H2].
  now destruct (snd (up p)).
Qed.

Lemma bump_keeps_id (cid title : str) (t now : Z) (c : Conversation) :
  conv_id (if str_eqb (conv_id c) cid
           then flush_conversation title (Some t) now c else c) = conv_id c.
Proof.
  destruct (str_eqb (conv_id c) cid); [apply flush_conversation_id | reflexivity].
Qed.

Lemma with_reply_ids (cid : str) (m : Message) (t now : Z) (s : store) :
  map conv_id (conversations (with_reply cid m t now s))
    = map conv_id (conversations s).
Proof.
  unfold with_reply. cbn [conversations]. rewrite map_map.
  apply map_ext. intros c. apply bump_keeps_id.
Qed.

(** Looking any conversation up after the assistant turn of [cid] was saved:
    the same identifier, title and creation time; the updated time is the
    new one for [cid] and the old one for the others. *)
Lemma with_reply_lookup (cid cid' : str) (m : Message) (t now : Z) (s : store)
    (c0 : Conversation) :
  query_conversation cid s = Some c0 ->
  match query_conversation cid' s with
  | None => query_conversation cid' (with_reply cid m t now s) = None
  | Some c' =>
      exists c'',
        query_conversation cid' (with_reply cid m t now s) = Some c'' /\
        conv_id c'' = conv_id c' /\ conv_title c'' = conv_title c' /\
        conv_created_at c'' = conv_created_at c' /\
        conv_updated_at c'' = if str_eqb cid' cid then t else conv_updated_at c'
  end.
Proof.
  intros Hq0. unfold with_reply. rewrite Hq0.
  rewrite (query_conversation_map _ cid' (conversations s) (messages s))
    by (intros c; apply bump_keeps_id).
  replace {| conversations := conversations s; messages := messages s |}
    with s by now destruct s.
  destruct (query_conversation cid' s) as [c'|] eqn:Hq'; [|reflexivity].
  cbn [option_map]. eexists. split; [reflexivity|].
  destruct (query_conversation_In _ _ _ Hq') as [_ Hid'].
  assert (Hb : str_eqb (conv_id c') cid = str_eqb cid' cid)
    by now rewrite Hid'.
  rewrite Hb. clear Hb Hid'.
  destruct (str_eqb cid' cid) eqn:Heq; [|repeat split].
  apply str_eqb_eq in Heq. rewrite Heq in Hq'.
  rewrite Hq0 in Hq'. injection Hq' as <-.
  split; [apply flush_conversation_id|].
  split; [apply flush_conversation_title|].
  split; [unfold flush_conversation; now destruct (_ || _)|].
  apply flush_conversation_same_title.
Qed.

Lemma turn_outcome_messages (r : ChatRequest) (e : chat_env) (s s' : store) :
  turn_outcome r e s s' ->
  messages s' = messages s \/
  exists cid um,
    conversation_id r = Some cid /\
    stored_message (user_message cid r e) = Some um /\
    (messages s' = messages s ++ [um] \/
     exists text am,
       text <> [] /\
       stored_message (assistant_message cid r e text) = Some am /\
       messages s' = messages s ++ [um; am]).
Proof.
  intros [->|(cid & c & um & Hcid & _ & _ & Hum
              & [->|(text & am & Htext & Ham & ->)])]; [now left| |];
    right; exists cid, um; (split; [exact Hcid|]); (split; [exact Hum|]).
  - now left.
  - right. exists text, am. split; [exact Htext|]. split; [exact Ham|].
    cbn [with_reply with_message messages]. now rewrite <- app_assoc.
Qed.

Lemma turn_outcome_ids (r : ChatRequest) (e : chat_env) (s s' : store) :
  turn_outcome r e s s' ->
  map conv_id (conversations s') = map conv_id (conversations s).
Proof.
  intros [->|(cid & c & um & _ & _ & _ & _ & [->|(text & am & _ & _ & ->)])];
    try reflexivity.
  now rewrite with_reply_ids.
Qed.

Lemma In_conv_ids (cid : str) (s : store) :
  In cid (map conv_id (conversations s)) <->
  exists c, In c (conversations s) /\ conv_id c = cid.
Proof.
  rewrite in_map_iff. split; intros (c & H1 & H2); exists c; now split.
Qed.

Lemma turn_outcome_references (r : ChatRequest) (e : chat_env) (s s' : store) :
  turn_outcome r e s s' -> references_valid s -> references_valid s'.
Proof.
  intros Hout Hvalid m Hm. apply In_conv_ids.
  rewrite (turn_outcome_ids r e s s' Hout).
  assert (Hold : forall m0, In m0 (messages s) ->
                 In (msg_conversation_id m0) (map conv_id (conversations s)))
    by (intros m0 H0; apply In_conv_ids; now apply Hvalid).
  assert (Hnew : forall cid c, query_conversation cid s = Some c ->
                 In cid (map conv_id (conversations s))).
  { intros cid c Hq. apply In_conv_ids. exists c.
    now apply query_conversation_In. }
  destruct Hout as [->|(cid & c & um & Hcid & _ & Hq & Hum
                        & [->|(text & am & _ & Ham & ->)])].
  - now apply Hold.
  - destruct (stored_message_fields _ _ Hum) as (_ & Hu & _).
    cbn [with_message messages] in Hm. apply in_app_or in Hm as [Hm|[<-|[]]];
      [now apply Hold | rewrite Hu; now apply (Hnew cid c)].
  - destruct (stored_message_fields _ _ Hum) as (_ & Hu & _).
    destruct (stored_message_fields _ _ Ham) as (_ & Ha & _).
    cbn [with_reply with_message messages] in Hm.
    apply in_app_or in Hm as [Hm|[<-|[]]];
      [|rewrite Ha; now apply (Hnew cid c)].
    apply in_app_or in Hm as [Hm|[<-|[]]];
      [now apply Hold | rewrite Hu; now apply (Hnew cid c)].
Qed.

Lemma turn_outcome_lookup (r : ChatRequest) (e : chat_env) (s s' : store)
    (cid' : str) (c' : Conversation) :
  turn_outcome r e s s' ->
  query_conversation cid' s = Some c' ->
  exists c'',
    query_conversation cid' s' = Some c'' /\
    conv_id c'' = conv_id c' /\ conv_title c'' = conv_title c' /\
    conv_created_at c'' = conv_created_at c' /\
    (conversation_id r <> Some cid' -> conv_updated_at c'' = conv_updated_at c').
Proof.
  intros [->|(cid & c & um & Hcid & _ & Hq & _ & [->|(text & am & _ & _ & ->)])] Hq'.
  - exists c'. repeat split; assumption.
  - exists c'. repeat split; assumption.
  - pose proof (with_reply_lookup cid cid' am
                  (updated_time e) (assistant_flush_time e)
                  (with_message um s) c Hq) as H.
    change (query_conversation cid' (with_message um s))
      with (query_conversation cid' s) in H.
    rewrite Hq' in H. destruct H as (c'' & H1 & H2 & H3 & H4 & H5).
    exists c''. repeat split; try assumption.
    intros Hother. rewrite H5.
    destruct (str_eqb cid' cid) eqn:Heq; [|reflexivity].
    apply str_eqb_eq in Heq. subst. contradiction.
Qed.

(** X1. A chat turn, streaming or not, with or without a client, keeps the
    store consistent: when every message referred to a conversation of the
    store before the turn, so it is after it; and the turn neither adds nor
    removes a conversation. *)
Theorem chat_turn_keeps_references (claude_client : bool) (data : ws_data)
    (up : upstream) (e : chat_env) (s : store) :
  references_valid s ->
  let r := extract_request data in
  let s_ws := snd (process_streaming_chat claude_client data up e s) in
  let s_http := snd (chat_endpoint claude_client r up e s) in
  references_valid s_ws /\ references_valid s_http /\
  map conv_id (conversations s_ws) = map conv_id (conversations s) /\
  map conv_id (conversations s_http) = map conv_id (conversations s).
Proof.
  intros Hvalid r s_ws s_http.
  pose proof (streaming_turn_outcome claude_client data up e s) as Hws.
  pose proof (chat_turn_outcome claude_client r up e s) as Hhttp.
  fold r in Hws. repeat split.
  - now apply (turn_outcome_references r e s).
  - now apply (turn_outcome_references r e s).
  - now apply (turn_outcome_ids r e s).
  - now apply (turn_outcome_ids r e s).
Qed.

Lemma title_store_valid : references_valid title_store.
Proof.
  intros m [<-|[]]. exists sample_conversation. split; [now left | reflexivity].
Qed.

Lemma chat_turn_keeps_references_witness :
  references_valid
    (snd (process_streaming_chat true (sample_data (Some (lit "c-1")) None)
            hello_upstream sample_env title_store)).
Proof.
  exact (proj1 (chat_turn_keeps_references true (sample_data (Some (lit "c-1")) None)
                  hello_upstream sample_env title_store title_store_valid)).
Defined.

(** X2. A chat turn, streaming or not, only appends to the messages: the
    rows that were there stay where they were, and what is added is nothing,
    the user row, or the user row followed by an assistant row with a
    non-empty text, each as the table keeps it; these are the rows as the
    turn built them when the rendering of the temperature has at most 10
    characters and the model identifier at most 100.  Every conversation
    keeps its identifier, title and creation time, and every conversation
    but the one of the request keeps its updated time. *)
Theorem chat_turn_only_appends (claude_client : bool) (data : ws_data)
    (up : upstream) (e : chat_env) (s : store) :
  let r := extract_request data in
  forall s',
    s' = snd (process_streaming_chat claude_client data up e s) \/
    s' = snd (chat_endpoint claude_client r up e s) ->
    (messages s' = messages s \/
     exists cid um,
       conversation_id r = Some cid /\
       stored_message (user_message cid r e) = Some um /\
       (len (temperature r) <= 10 -> um = user_message cid r e) /\
       (messages s' = messages s ++ [um] \/
        exists text am,
          text <> [] /\
          stored_message (assistant_message cid r e text) = Some am /\
          (len (temperature r) <= 10 -> len (model r) <= 100 ->
           am = assistant_message cid r e text) /\
          messages s' = messages s ++ [um; am]))
    /\ (forall cid' c',
          query_conversation cid' s = Some c' ->
          exists c'',
            query_conversation cid' s' = Some c'' /\
            conv_id c'' = conv_id c' /\ conv_title c'' = conv_title c' /\
            conv_created_at c'' = conv_created_at c' /\
            (conversation_id r <> Some cid' ->
             conv_updated_at c'' = conv_updated_at c')).
Proof.
  intros r s' Hs'.
  assert (Hout : turn_outcome r e s s').
  { destruct Hs' as [->| ->];
      [apply streaming_turn_outcome | apply chat_turn_outcome]. }
  split; [|intros cid' c'; now apply (turn_outcome_lookup r e s)].
  destruct (turn_outcome_messages r e s s' Hout)
    as [H|(cid & um & Hcid & Hum & H)]; [now left|].
  right. exists cid, um. split; [exact Hcid|]. split; [exact Hum|]. split.
  - intros Ht. rewrite (stored_user_message cid r e Ht) in Hum. congruence.
  - destruct H as [H|(text & am & Htext & Ham & H)]; [now left|].
    right. exists text, am. split; [exact Htext|]. split; [exact Ham|].
    split; [|exact H].
    intros Ht Hm. rewrite (stored_assistant_message cid r e text Ht Hm) in Ham.
    congruence.
Qed.

(** X3. The non-streaming endpoint answers with a reply exactly when the
    user turn was saved (or there was none to save) and the upstream call
    ended without error; the reply is then the concatenation of all the
    fragments, with the time read for it. *)
Theorem chat_endpoint_reply (r : ChatRequest) (up : upstream) (e : chat_env)
    (s : store) (reply : ChatResponse) :
  let p := build_params r (resolved r) in
  fst (fst (chat_endpoint true r up e s)) = Ok reply <->
  (exists tr0 s1, save_user_message r e s = (tr0, inr s1)) /\
  snd (up p) = None /\
  reply = {| cr_message := concat_all (fst (up p));
             cr_timestamp := complete_time e |}.
Proof.
  intros p. rewrite chat_endpoint_eq. fold p.
  destruct (save_user_message r e s) as [tr0 [err|s1]]; cbn [fst].
  - split; [discriminate | intros [(t & s1 & H) _]; discriminate].
  - destruct (snd (up p)) as [err|]; cbn [fst].
    + split; [discriminate | intros (_ & H & _); discriminate].
    + split.
      * intros [= <-]. repeat split. now exists tr0, s1.
      * intros (_ & _ & ->). reflexivity.
Qed.







Lemma chat_turn_only_appends_witness :
  let r := extract_request (sample_data (Some (lit "c-1")) None) in
  let s' := snd (process_streaming_chat true (sample_data (Some (lit "c-1")) None)
                   hello_upstream sample_env sample_store) in
  messages s' = messages sample_store \/
  exists cid um,
    conversation_id r = Some cid /\
    stored_message (user_message cid r sample_env) = Some um /\
    (len (temperature r) <= 10 -> um = user_message cid r sample_env) /\
    (messages s' = messages sample_store ++ [um] \/
     exists text am,
       text <> [] /\
       stored_message (assistant_message cid r sample_env text) = Some am /\
       (len (temperature r) <= 10 -> len (model r) <= 100 ->
        am = assistant_message cid r sample_env text) /\
       messages s' = messages sample_store ++ [um; am]).
Proof.
  exact (proj1 (chat_turn_only_appends true (sample_data (Some (lit "c-1")) None)
                  hello_upstream sample_env sample_store _ (or_introl eq_refl))).
Defined.

(* ===================================================================== *)
(** ** Reading, deleting, creating and renaming conversations *)
(* ===================================================================== *)

Section SortedInput.
Context {A : Type} (le : A -> A -> bool).

(** Sorting a list that is already in order changes nothing. *)
Lemma order_by_sorted_id (l : list A) :
  StronglySorted (fun a b => le a b = true) l -> order_by le l = l.
Proof.
  induction 1 as [|x l Hs IH Hx]; [reflexivity|].
  cbn [order_by]. rewrite IH. destruct l as [|y l]; [reflexivity|].
  cbn [insert_by]. apply Forall_inv in Hx. now rewrite Hx.
Qed.
End SortedInput.


Lemma owned_In (cid : str) (s : store) (m : Message) :
  In m (owned cid s) <-> In m (messages s) /\ msg_conversation_id m = cid.
Proof. unfold owned. now rewrite filter_In, str_eqb_eq. Qed.

Lemma get_conversation_eq (cid : str) (s : store) (c : Conversation) :
  query_conversation cid s = Some c ->
  get_conversation cid s =
    Ok {| cd_id := cid; cd_title := conv_title c;
          cd_created_at := conv_created_at c;
          cd_updated_at := conv_updated_at c;
          cd_messages := order_by created_asc (owned cid s) |}.
Proof.
  intros Hq. unfold get_conversation. rewrite Hq.
  destruct (query_conversation_In _ _ _ Hq) as [_ ->]. reflexivity.
Qed.

(** X6. Reading a conversation: for an identifier that names no
    conversation the answer is 404; otherwise it is the conversation found,
    with exactly the messages that refer to it, each as often as it is
    stored, ordered by creation time; when these were stored in the order of
    their creation times they come back in the order they were stored. *)
Theorem get_conversation_messages (cid : str) (s : store) :
  match query_conversation cid s with
  | None => get_conversation cid s = HTTPException 404 "Conversation not found"
  | Some c =>
      exists d,
        get_conversation cid s = Ok d /\
        cd_id d = cid /\ cd_title d = conv_title c /\
        cd_created_at d = conv_created_at c /\
        cd_updated_at d = conv_updated_at c /\
        Permutation (owned cid s) (cd_messages d) /\
        StronglySorted (fun a b => (msg_created_at a <= msg_created_at b)%Z)
                       (cd_messages d) /\
        (StronglySorted (fun a b => (msg_created_at a <= msg_created_at b)%Z)
                        (owned cid s) ->
         cd_messages d = owned cid s)
  end.
Proof.
  destruct (query_conversation cid s) as [c|] eqn:Hq.
  - eexists. split; [exact (get_conversation_eq cid s c Hq)|]. cbn.
    repeat split.
    + apply order_by_perm.
    + eapply StronglySorted_impl;
        [|apply (order_by_sorted created_asc created_asc_total created_asc_trans)].
      intros a b. unfold created_asc. apply Z.leb_le.
    + intros Hs. apply order_by_sorted_id.
      eapply StronglySorted_impl; [|exact Hs].
      intros a b. unfold created_asc. apply Z.leb_le.
  - unfold get_conversation. now rewrite Hq.
Qed.





Lemma query_conversation_none_iff (cid : str) (s : store) :
  query_conversation cid s = None <->
  forall c, In c (conversations s) -> conv_id c <> cid.
Proof.
  split; [intros H c; now apply query_conversation_None|].
  intros H. unfold query_conversation.
  destruct (find _ (conversations s)) as [c|] eqn:Hf; [|reflexivity].
  apply find_some in Hf as [Hin Heq]. apply str_eqb_eq in Heq.
  now contradiction (H c Hin).
Qed.

Section Keyed.
Context {A : Type} (key : A -> str).

Lemma filter_out_none (cid : str) (l : list A) :
  List.filter (fun a => str_eqb (key a) cid)
              (List.filter (fun a => negb (str_eqb (key a) cid)) l) = [].
Proof.
  induction l as [|a l IH]; [reflexivity|]. cbn [List.filter].
  destruct (str_eqb (key a) cid) eqn:Ha; cbn [negb]; [exact IH|].
  cbn [List.filter]. now rewrite Ha.
Qed.

Lemma filter_out_other (cid cid' : str) (l : list A) :
  cid' <> cid ->
  List.filter (fun a => str_eqb (key a) cid')
              (List.filter (fun a => negb (str_eqb (key a) cid)) l)
    = List.filter (fun a => str_eqb (key a) cid') l.
Proof.
  intros Hne. induction l as [|a l IH]; [reflexivity|]. cbn [List.filter].
  destruct (str_eqb (key a) cid) eqn:Ha; cbn [negb].
  - apply str_eqb_eq in Ha. rewrite Ha.
    assert (Hn : str_eqb cid cid' = false) by (apply str_eqb_neq; congruence).
    now rewrite Hn.
  - cbn [List.filter]. destruct (str_eqb (key a) cid'); now rewrite IH.
Qed.

Lemma find_out_other (cid cid' : str) (l : list A) :
  cid' <> cid ->
  find (fun a => str_eqb (key a) cid')
       (List.filter (fun a => negb (str_eqb (key a) cid)) l)
    = find (fun a => str_eqb (key a) cid') l.
Proof.
  intros Hne. induction l as [|a l IH]; [reflexivity|]. cbn [List.filter find].
  destruct (str_eqb (key a) cid) eqn:Ha; cbn [negb].
  - apply str_eqb_eq in Ha. rewrite Ha.
    assert (Hn : str_eqb cid cid' = false) by (apply str_eqb_neq; congruence).
    now rewrite Hn.
  - cbn [find]. now destruct (str_eqb (key a) cid').
Qed.
End Keyed.

(** X8. Deleting a conversation.  For an identifier that names no
    conversation the answer is 404 and the store is untouched.  Otherwise the
    conversation is gone together with every message that referred to it,
    every other conversation and every other message is kept, in the same
    order, and reading or deleting the conversation again gives 404. *)
Theorem delete_conversation_cascades (cid : str) (s : store) :
  let s' := snd (delete_conversation cid s) in
  match query_conversation cid s with
  | None =>
      delete_conversation cid s = (HTTPException 404 "Conversation not found", s)
  | Some _ =>
      fst (delete_conversation cid s) = Ok (lit "Conversation deleted successfully") /\
      conversations s'
        = List.filter (fun c => negb (str_eqb (conv_id c) cid)) (conversations s) /\
      messages s'
        = List.filter (fun m => negb (str_eqb (msg_conversation_id m) cid))
                      (messages s) /\
      query_conversation cid s' = None /\
      owned cid s' = [] /\
      (forall cid', cid' <> cid ->
         query_conversation cid' s' = query_conversation cid' s /\
         owned cid' s' = owned cid' s) /\
      get_conversation cid s' = HTTPException 404 "Conversation not found" /\
      fst (delete_conversation cid s')
        = HTTPException 404 "Conversation not found"
  end.
Proof.
  intros s'. subst s'.
  destruct (query_conversation cid s) as [c|] eqn:Hq;
    [|unfold delete_conversation; now rewrite Hq].
  assert (Hdel : delete_conversation cid s =
    (Ok (lit "Conversation deleted successfully"),
     {| conversations :=
          List.filter (fun c => negb (str_eqb (conv_id c) cid)) (conversations s);
        messages :=
          List.filter (fun m => negb (str_eqb (msg_conversation_id m) cid))
                      (messages s) |})).
  { unfold delete_conversation. rewrite Hq.
    now destruct (query_conversation_In _ _ _ Hq) as [_ ->]. }
  rewrite Hdel. cbn [fst snd].
  set (s' := {| conversations := _; messages := _ |}).
  assert (Hgone : query_conversation cid s' = None).
  { apply query_conversation_none_iff. intros c' Hc'. cbn in Hc'.
    apply filter_In in Hc' as [_ Hne]. apply negb_true_iff in Hne.
    now apply str_eqb_neq. }
  repeat split.
  - exact Hgone.
  - apply (filter_out_none msg_conversation_id).
  - unfold query_conversation. now apply (find_out_other conv_id).
  - now apply (filter_out_other msg_conversation_id).
  - unfold get_conversation. now rewrite Hgone.
  - unfold delete_conversation. now rewrite Hgone.
Qed.

Lemma create_conversation_eq (title : str) (e : store_env) (s : store) :
  create_conversation title e s =
    match column 255 title with
    | Some kept =>
        let new := {| conv_id := fresh_id e; conv_title := kept;
                      conv_created_at := utcnow e;
                      conv_updated_at := flush_time e |} in
        (Ok new, {| conversations := conversations s ++ [new];
                    messages := messages s |})
    | None => (HTTPException 500 "Failed to create conversation", s)
    end.
Proof.
  unfold create_conversation, refresh.
  cbn [commit apply_write]. unfold stored_conversation. cbn [conv_title].
  now destruct (column 255 title).
Qed.





Lemma with_stored_title_ids (cid title stored : str) (upd : option Z) (now : Z)
    (s : store) :
  map conv_id (conversations (with_stored_title cid title stored upd now s))
    = map conv_id (conversations s).
Proof.
  unfold with_stored_title. cbn [conversations]. rewrite map_map.
  apply map_ext. intros c.
  destruct (str_eqb (conv_id c) cid); [apply flush_conversation_id | reflexivity].
Qed.

Lemma references_valid_same_ids (s s' : store) :
  map conv_id (conversations s') = map conv_id (conversations s) ->
  (forall m, In m (messages s') -> In m (messages s)) ->
  references_valid s -> references_valid s'.
Proof.
  intros Hids Hms Hvalid m Hm. apply In_conv_ids. rewrite Hids.
  apply In_conv_ids. now apply Hvalid, Hms.
Qed.

(** The store after the commit of a title: as it was, or with one title
    written. *)
Lemma commit_title_store (detail : str) (now : Z) (cid title : str)
    (upd : option Z) (s : store) :
  match commit detail now [UpdateConversation cid title upd] s with
  | inr s' => exists stored, s' = with_stored_title cid title stored upd now s
  | inl _ => True
  end.
Proof.
  cbn [commit apply_write].
  destruct (match query_conversation cid s with Some _ => _ | None => _ end);
    [|exact I].
  eexists. reflexivity.
Qed.

(** The store after a title generation: as it was, or with one title
    written. *)
Lemma generate_conversation_title_store (claude_client : bool) (cid : str)
    (up : upstream) (e : store_env) (s : store) :
  snd (generate_conversation_title claude_client cid up e s) = s \/
  exists title stored upd,
    snd (generate_conversation_title claude_client cid up e s)
      = with_stored_title cid title stored upd (flush_time e) s.
Proof.
  unfold generate_conversation_title.
  destruct claude_client; [|now left]. cbn [negb].
  destruct (query_conversation cid s) as [c|]; [|now left].
  destruct (first_messages cid s) as [|first rest]; [now left|].
  destruct (up (title_params (first :: rest))) as [fragments [err|]].
  - pose proof (commit_title_store (error_detail e) (flush_time e) cid
                  (excerpt (msg_content first)) None s) as H.
    destruct (commit _ _ _ s) as [err'|s1]; [now left|].
    destruct H as (stored & ->). right. eexists _, _, _. reflexivity.
  - pose proof (commit_title_store (error_detail e) (flush_time e) cid
                  (clean_title (concat_all fragments)) (Some (utcnow e)) s) as H.
    destruct (commit _ _ _ s) as [err'|s1]; [now left|].
    destruct H as (stored & ->). right. eexists _, _, _. reflexivity.
Qed.

Lemma update_conversation_title_store (cid : str) (title_data : option str)
    (e : store_env) (s : store) :
  snd (update_conversation_title cid title_data e s) = s \/
  exists title stored,
    snd (update_conversation_title cid title_data e s)
      = with_stored_title cid title stored (Some (utcnow e)) (flush_time e) s.
Proof.
  unfold update_conversation_title.
  destruct (query_conversation cid s) as [c|] eqn:Hq; [|now left].
  pose proof (commit_title_store (error_detail e) (flush_time e) cid
                (default (conv_title c) title_data) (Some (utcnow e)) s) as H.
  destruct (commit _ _ _ s) as [err'|s1]; [now left|].
  destruct H as (stored & ->). right. eexists _, _. reflexivity.
Qed.

(** X11. The conversation endpoints keep the store consistent: when every
    message refers to a conversation of the store, this is still so after
    creating a conversation, after renaming one, after deleting one with its
    messages, and after generating a title. *)
Theorem conversation_endpoints_keep_references (s : store) :
  references_valid s ->
  (forall title e, references_valid (snd (create_conversation title e s))) /\
  (forall cid title_data e,
     references_valid (snd (update_conversation_title cid title_data e s))) /\
  (forall cid, references_valid (snd (delete_conversation cid s))) /\
  (forall claude_client cid up e,
     references_valid
       (snd (generate_conversation_title claude_client cid up e s))).
Proof.
  intros Hvalid. repeat split.
  - intros title e. rewrite create_conversation_eq.
    destruct (column 255 title); [|exact Hvalid].
    intros m Hm. destruct (Hvalid m Hm) as (c & Hc & Hid).
    exists c. split; [|exact Hid]. cbn. apply in_or_app. now left.
  - intros cid title_data e.
    destruct (update_conversation_title_store cid title_data e s)
      as [->|(title & stored & ->)]; [exact Hvalid|].
    apply (references_valid_same_ids s);
      [apply with_stored_title_ids | | exact Hvalid].
    intros m Hm. exact Hm.
  - intros cid. unfold delete_conversation.
    destruct (query_conversation cid s) as [c|] eqn:Hq; [|exact Hvalid].
    cbn [snd]. intros m Hm. cbn in Hm. apply filter_In in Hm as [Hm Hne].
    destruct (Hvalid m Hm) as (c' & Hc' & Hid). exists c'. split; [|exact Hid].
    cbn. apply filter_In. split; [exact Hc'|]. now rewrite Hid.
  - intros claude_client cid up e.
    destruct (generate_conversation_title_store claude_client cid up e s)
      as [->|(title & stored & upd & ->)]; [exact Hvalid|].
    apply (references_valid_same_ids s);
      [apply with_stored_title_ids | | exact Hvalid].
    intros m Hm. exact Hm.
Qed.

Lemma conversation_endpoints_keep_references_witness :
  references_valid (snd (delete_conversation "c-1" title_store)).
Proof.
  exact (proj1 (proj2 (proj2 (conversation_endpoints_keep_references
                                title_store title_store_valid))) "c-1").
Defined.

(** X12. Listing the conversations gives every conversation of the store,
    each as often as it is stored, ordered by updated time, latest first. *)
Theorem get_conversations_ordered (s : store) :
  exists l,
    get_conversations s = Ok l /\
    Permutation (conversations s) l /\
    StronglySorted (fun a b => (conv_updated_at b <= conv_updated_at a)%Z) l.
Proof.
  eexists. split; [reflexivity|]. split; [apply order_by_perm|].
  eapply StronglySorted_impl;
    [|apply (order_by_sorted updated_desc updated_desc_total updated_desc_trans)].
  intros a b. unfold updated_desc. apply Z.leb_le.
Qed.




(* ===================================================================== *)
(** ** The search, for every query *)
(* ===================================================================== *)






Lemma rstrip_idem (s : str) : rstrip (rstrip s) = rstrip s.
Proof.
  induction s as [|c s IH]; [reflexivity|].
  cbn [rstrip]. destruct (rstrip s) as [|a r] eqn:Hr.
  - destruct (is_space c) eqn:Hc; [reflexivity|]. cbn [rstrip]. now rewrite Hc.
  - change (rstrip (c :: a :: r))
      with (match rstrip (a :: r) with
            | [] => if is_space c then [] else [c]
            | r0 => c :: r0
            end).
    now rewrite IH.
Qed.

Lemma strip_idem (s : str) : strip (strip s) = strip s.
Proof.
  unfold strip.
  destruct (lstrip_head s) as [->|(c & t & -> & Hc)]; [reflexivity|].
  rewrite rstrip_cons_nonspace by exact Hc.
  cbn [lstrip]. rewrite Hc. rewrite <- (rstrip_cons_nonspace c t Hc).
  apply rstrip_idem.
Qed.

(** The search looks at a query only through its stripped form: its length
    and its lower case. *)
Lemma search_normal_form (lower : str -> str) (fold : N -> N) (q1 q2 : str)
    (s : store) :
  len (strip q1) = len (strip q2) ->
  lower (strip q1) = lower (strip q2) ->
  search_conversations lower fold q1 s = search_conversations lower fold q2 s.
Proof.
  intros Hlen Hn.
  assert (Hgate : forall q,
    negb (truthy q) || Nat.ltb (len (strip q)) 2 = Nat.ltb (len (strip q)) 2).
  { intros [|c q]; [reflexivity|]. reflexivity. }
  unfold search_conversations. rewrite !Hgate, Hlen, Hn. reflexivity.
Qed.

(** X15. The search ignores the white space around the query: a query and
    the stripped query get the same answer; and two queries whose stripped
    forms have the same length and the same lower case get the same
    answer. *)
Theorem search_ignores_padding (lower : str -> str) (fold : N -> N) (q : str)
    (s : store) :
  search_conversations lower fold (strip q) s = search_conversations lower fold q s
  /\ forall q', len (strip q') = len (strip q) ->
                lower (strip q') = lower (strip q) ->
                search_conversations lower fold q' s
                  = search_conversations lower fold q s.
Proof.
  split.
  - apply search_normal_form; now rewrite strip_idem.
  - intros q'. apply search_normal_form.
Qed.

(* ===================================================================== *)
(** ** Titles *)
(* ===================================================================== *)










Lemma first_messages_none (cid : str) (s : store) :
  owned cid s = [] -> first_messages cid s = [].
Proof. unfold first_messages, owned. now intros ->. Qed.

(** X17. The title generation where it does nothing.  Without a client the
    answer is 500; for an identifier that names no conversation it is 404;
    for a conversation without messages it is the title [New Chat].  In the
    three cases the upstream is not called and the store is left as it was;
    in particular the conversation without messages keeps its title. *)
Theorem title_generation_without_effect (claude_client : bool) (cid : str)
    (up : upstream) (e : store_env) (s : store) :
  claude_client = false \/ query_conversation cid s = None \/ owned cid s = [] ->
  generate_conversation_title claude_client cid up e s =
    (if negb claude_client
     then HTTPException 500 "Claude client not initialized"
     else match query_conversation cid s with
          | None => HTTPException 404 "Conversation not found"
          | Some _ => Ok (lit "New Chat")
          end,
     [], s).
Proof.
  intros H. unfold generate_conversation_title.
  destruct claude_client; cbn [negb]; [|reflexivity].
  destruct (query_conversation cid s) as [c|] eqn:Hq; [|reflexivity].
  destruct H as [H|[H|H]]; [discriminate | discriminate|].
  now rewrite (first_messages_none cid s H).
Qed.

Lemma title_generation_without_effect_witness :
  generate_conversation_title true "c-1" wordy_upstream title_env sample_store
    = (Ok (lit "New Chat"), [], sample_store).
Proof.
  exact (title_generation_without_effect true "c-1" wordy_upstream title_env
           sample_store (or_intror (or_intror eq_refl))).
Defined.

Lemma substring_length_min (n : nat) (s : str) :
  length (firstn n s) = Nat.min n (length s).
Proof.
  revert n. induction s as [|c s IH]; intros [|n]; cbn; try reflexivity.
  now rewrite IH.
Qed.

(** X18. The request of a title generation is bounded: however many and
    however long the messages, the prompt carries at most the first 1000
    characters of the transcript and has at most 1238 characters; it is sent
    to the default model with a limit of 20 output tokens. *)
Theorem title_prompt_bounded (msgs : list Message) :
  len (title_prompt msgs) = 238 + Nat.min 1000 (len (conversation_content msgs)) /\
  len (title_prompt msgs) <= 1238 /\
  p_model (title_params msgs) = sonnet_id /\
  p_max_tokens (title_params msgs) = 20%Z /\
  p_messages (title_params msgs)
    = [{| am_role := "user"; am_text := title_prompt msgs |}].
Proof.
  assert (Hlen : len (title_prompt msgs)
                 = 238 + Nat.min 1000 (len (conversation_content msgs))).
  { unfold title_prompt, len, slice_to.
    set (shown := firstn 1000 (conversation_content msgs)).
    rewrite <- (substring_length_min 1000 (conversation_content msgs)).
    fold shown. generalize shown. intros x.
    rewrite !append_length. unfold nl, indent. cbn [length lit]. lia. }
  split; [exact Hlen|]. split; [rewrite Hlen; lia|]. repeat split.
Qed.

(* ===================================================================== *)
(** ** The notifications of a turn and of a session *)
(* ===================================================================== *)

Lemma chunks_not_terminal (acc : str) (fs : list str) :
  List.filter is_terminal (chunks_from acc fs) = [].
Proof.
  revert acc. induction fs as [|f fs IH]; intros acc; [reflexivity|].
  cbn [chunks_from List.filter is_terminal is_complete is_error orb]. apply IH.
Qed.

(** What a turn sends: one error alone, or the status, the chunks and one
    last notification, which is the complete notification exactly when the
    upstream call ended without error. *)
Lemma streaming_turn_sent (claude_client : bool) (data : ws_data) (up : upstream)
    (e : chat_env) (s : store) :
  let r := extract_request data in
  let p := build_params r (resolved r) in
  let tr := fst (process_streaming_chat claude_client data up e s) in
  (upstream_calls tr = [] /\ exists text, sent tr = [Error text]) \/
  (upstream_calls tr = [p] /\
   exists last,
     sent tr = Status ("Processing with " ++ name (resolved r) ++ "...")
                 :: chunks_from [] (fst (up p)) ++ [last] /\
     match snd (up p) with
     | None => last = Complete (concat_all (fst (up p))) (complete_time e)
     | Some err => last = Error (stream_error_text (resolved r) err)
     end).
Proof.
  intros r p tr. subst tr.
  destruct claude_client; [|left; split; [reflexivity | now eexists]].
  rewrite process_streaming_chat_eq. fold r p.
  pose proof (save_user_message_trace r e s) as (Hs0 & Hu0 & _).
  destruct (save_user_message r e s) as [tr0 [err|s1]]; cbn [fst] in *.
  - left. rewrite upstream_calls_app, sent_app, Hs0, Hu0.
    split; [reflexivity | now eexists].
  - right.
    pose proof (save_assistant_message_trace r e (concat_all (fst (up p))) s1)
      as (Hs2 & Hu2 & _).
    destruct (snd (up p)) as [err|]; cbn [fst];
      repeat rewrite upstream_calls_app; repeat rewrite sent_app;
      rewrite Hs0, Hu0, stream_loop_sent, stream_loop_upstream;
      try rewrite Hs2; try rewrite Hu2;
      (split; [reflexivity | eexists; split; reflexivity]).
Qed.

Lemma streaming_turn_terminals (claude_client : bool) (data : ws_data)
    (up : upstream) (e : chat_env) (s : store) :
  length (terminals (fst (process_streaming_chat claude_client data up e s))) = 1.
Proof.
  unfold terminals.
  destruct (streaming_turn_sent claude_client data up e s)
    as [(_ & text & ->)|(_ & last & -> & Hlast)]; [reflexivity|].
  cbn [List.filter is_terminal is_complete is_error orb].
  rewrite List.filter_app, chunks_not_terminal.
  destruct (snd (up _)); subst last; reflexivity.
Qed.

(** X19. Every streaming turn, whatever happens in it, sends exactly one
    notification that ends it, a complete or an error notification, and
    sends it last.  It is the complete notification exactly when the
    upstream was called and its stream ended without error. *)
Theorem every_turn_ends_once (claude_client : bool) (data : ws_data)
    (up : upstream) (e : chat_env) (s : store) :
  let tr := fst (process_streaming_chat claude_client data up e s) in
  exists body last,
    sent tr = body ++ [last] /\
    is_terminal last = true /\
    List.filter is_terminal body = [] /\
    (is_complete last = true <->
     exists p, In p (upstream_calls tr) /\ snd (up p) = None).
Proof.
  intros tr. subst tr.
  destruct (streaming_turn_sent claude_client data up e s)
    as [(Hu & text & ->)|(Hu & last & -> & Hlast)]; rewrite Hu.
  - exists [], (Error text). repeat split; try discriminate.
    intros (p & [] & _).
  - eexists (Status _ :: chunks_from [] _), last.
    split; [reflexivity|].
    set (p := build_params _ _) in *.
    destruct (snd (up p)) as [err|] eqn:Hup; subst last.
    + repeat split; try (cbn; apply chunks_not_terminal); try discriminate.
      intros (p' & [<-|[]] & H). rewrite Hup in H. discriminate.
    + repeat split; try (cbn; apply chunks_not_terminal).
      intros _. exists p. split; [now left | exact Hup].
Qed.

Lemma terminals_app (a b : list event) :
  terminals (a ++ b) = terminals a ++ terminals b.
Proof. unfold terminals. now rewrite sent_app, List.filter_app. Qed.

Lemma remove_first_last (x : nat) (l : list nat) :
  ~ In x l -> remove_first x (l ++ [x]) = l.
Proof.
  induction l as [|y l IH]; intros Hx; cbn.
  - now rewrite Nat.eqb_refl.
  - destruct (Nat.eqb x y) eqn:Hxy.
    + apply Nat.eqb_eq in Hxy. subst. exfalso. apply Hx. now left.
    + rewrite IH; [reflexivity|]. intros H. apply Hx. now right.
Qed.

Lemma receive_loop_requests (claude_client : bool) (up : upstream)
    (turns : list (ws_data * chat_env)) (s : store) :
  snd (receive_loop claude_client up (requests turns) s) = true /\
  length (terminals (fst (fst (receive_loop claude_client up (requests turns) s))))
    = length turns.
Proof.
  revert s. induction turns as [|[data e] turns IH]; intros s; [now split|].
  cbn [requests map fst snd receive_loop].
  pose proof (streaming_turn_terminals claude_client data up e s) as Hone.
  destruct (process_streaming_chat claude_client data up e s) as [tr s1].
  specialize (IH s1). fold (requests turns).
  destruct (receive_loop claude_client up (requests turns) s1) as [[tr' s2] d].
  cbn [fst snd] in *. destruct IH as [-> IH]. split; [reflexivity|].
  rewrite terminals_app, length_app, Hone, IH. reflexivity.
Qed.

(** X20. A session of well-formed requests that ends with the client
    disconnecting: every request is served and gets exactly one terminal
    notification, so there are as many of them as requests, whatever failed
    in the turns; and the socket, registered when the session began, is no
    longer registered when it ends. *)
Theorem session_serves_every_request (claude_client : bool) (up : upstream)
    (websocket : nat) (active_connections : list nat)
    (turns : list (ws_data * chat_env)) (s : store) :
  ~ In websocket active_connections ->
  let out := websocket_endpoint claude_client up websocket active_connections
               (requests turns) s in
  length (terminals (fst (fst out))) = length turns /\
  snd out = active_connections.
Proof.
  intros Hnew out. subst out. unfold websocket_endpoint.
  destruct (receive_loop_requests claude_client up turns s) as [Hd Hn].
  destruct (receive_loop claude_client up (requests turns) s) as [[tr s'] d].
  cbn [fst snd] in *. subst d. split; [exact Hn|].
  now apply remove_first_last.
Qed.

Lemma session_serves_every_request_witness :
  length (terminals (fst (fst
    (websocket_endpoint true broken_upstream 7 [3; 5]
       (requests [(sample_data (Some (lit "gone")) None, sample_env);
                  (sample_data (Some (lit "c-1")) None, sample_env)])
       sample_store)))) = 2.
Proof.
  refine (proj1 (session_serves_every_request true broken_upstream 7 [3; 5]
                   [(sample_data (Some (lit "gone")) None, sample_env);
                    (sample_data (Some (lit "c-1")) None, sample_env)]
                   sample_store _)).
  vm_compute. intros [H|[H|[]]]; discriminate.
Defined.

Lemma receive_loop_malformed (claude_client : bool) (up : upstream)
    (turns : list (ws_data * chat_env)) (detail : str) (later : list frame)
    (s : store) :
  receive_loop claude_client up (requests turns ++ Malformed detail :: later) s
    = (fst (fst (receive_loop claude_client up (requests turns) s))
         ++ [EvSend (Error detail)],
       snd (fst (receive_loop claude_client up (requests turns) s)),
       false).
Proof.
  revert s. induction turns as [|[data e] turns IH]; intros s; [reflexivity|].
  cbn [requests map fst snd receive_loop app].
  destruct (process_streaming_chat claude_client data up e s) as [tr s1].
  fold (requests turns). rewrite IH.
  destruct (receive_loop claude_client up (requests turns) s1) as [[tr' s2] d].
  cbn [fst snd]. now rewrite app_assoc.
Qed.

(** X21. A frame that cannot be read ends the session: the requests before
    it are served as usual, the client is sent one error with the text of
    the failure, the frames after it are never served and leave no trace in
    the store, and the socket stays registered in the list of active
    connections. *)
Theorem malformed_frame_ends_session (claude_client : bool) (up : upstream)
    (websocket : nat) (active_connections : list nat)
    (turns : list (ws_data * chat_env)) (detail : str) (later : list frame)
    (s : store) :
  let before := websocket_endpoint claude_client up websocket active_connections
                  (requests turns) s in
  websocket_endpoint claude_client up websocket active_connections
    (requests turns ++ Malformed detail :: later) s
    = (fst (fst before) ++ [EvSend (Error detail)],
       snd (fst before),
       active_connections ++ [websocket]).
Proof.
  intros before. subst before. unfold websocket_endpoint.
  rewrite receive_loop_malformed.
  destruct (receive_loop claude_client up (requests turns) s) as [[tr s'] d].
  reflexivity.
Qed.

(* ===================================================================== *)
(** ** The request sent upstream *)
(* ===================================================================== *)

Lemma resolved_cases (r : ChatRequest) :
  (model r = opus_id /\ resolved r = opus_config) \/
  (model r <> opus_id /\ resolved r = sonnet_config).
Proof.
  unfold resolved.
  destruct (CLAUDE_MODELS !! model r) as [d|] eqn:Hd; cbn [default].
  - destruct (registry_lookup _ _ Hd) as [[Hm ->]|[Hm ->]].
    + right. split; [rewrite Hm; discriminate | reflexivity].
    + now left.
  - right. split; [|reflexivity]. intros Hm. rewrite Hm in Hd.
    vm_compute in Hd. discriminate.
Qed.

(** X22. The request a chat turn, streaming or not, sends upstream: the
    model and the temperature of the request; the history in its order
    followed by the message as the last, user, turn; a limit of 32000 output
    tokens for the Opus model and of 64000 for every other identifier; the
    thinking option exactly when the client asked for it, whatever the
    model; and the web search tool, limited to five uses, exactly when the
    client asked for it. *)
Theorem upstream_request_parameters (data : ws_data) (up : upstream)
    (e : chat_env) (s : store) (p : api_params) :
  let r := extract_request data in
  In p (upstream_calls (fst (process_streaming_chat true data up e s))) \/
  In p (upstream_calls (snd (fst (chat_endpoint true r up e s)))) ->
  p_model p = model r /\
  p_temperature p = temperature r /\
  p_messages p
    = map (fun m => {| am_role := cm_role m; am_text := cm_content m |})
          (conversation_history r)
      ++ [{| am_role := "user"; am_text := message r |}] /\
  p_max_tokens p = (if str_eqb (model r) opus_id then 32000 else 64000)%Z /\
  p_thinking p = enable_thinking r /\
  p_tools p = (if enable_web_search r
               then [{| tool_type := "web_search_20250305";
                        tool_name := "web_search"; tool_max_uses := 5 |}]
               else []).
Proof.
  intros r Hp.
  assert (Heq : p = build_params r (resolved r)).
  { destruct Hp as [Hp|Hp].
    - now apply upstream_called in Hp as [-> _].
    - destruct (chat_endpoint_effects r up e s) as (Hcall & _ & _).
      now apply Hcall. }
  subst p. cbn [build_params p_model p_temperature p_messages p_max_tokens
                p_thinking p_tools].
  repeat split.
  - destruct (resolved_cases r) as [[Hm ->]|[Hm ->]].
    + rewrite Hm. reflexivity.
    + apply str_eqb_neq in Hm. now rewrite Hm.
  - destruct (resolved_cases r) as [[_ ->]|[_ ->]]; cbn; apply andb_true_r.
Qed.

Lemma upstream_request_parameters_witness :
  p_max_tokens (build_params (extract_request (sample_data None (Some opus_id)))
                             opus_config) = 32000%Z /\
  p_thinking (build_params (extract_request (sample_data None (Some opus_id)))
                           opus_config) = true.
Proof.
  destruct (upstream_request_parameters (sample_data None (Some opus_id))
              hello_upstream sample_env sample_store
              (build_params (extract_request (sample_data None (Some opus_id)))
                            opus_config))
    as (_ & _ & _ & Hmax & Hth & _); [left; vm_compute; now left|].
  split; [exact Hmax | exact Hth].
Defined.
